(** * A packed bit array with sub-range rotation: [bitarray.c]

    Shallow embedding of [src/bitarray.c] and the properties its
    specification states about it.

    Conventions of the embedding.

    - Integers are mathematical [Z]; every C conversion and every
      wrap-around of unsigned arithmetic is written out.  The data model
      is LP64: [size_t] is 64 bits unsigned, [ssize_t] 64 bits signed,
      [int] 32 bits signed, [int8_t] 8 bits signed.  Conversions of an
      out-of-range value to a signed type wrap (two's complement), as
      every mainstream compiler implements them.
    - A [char] is represented by its 8-bit pattern, a [Z] in [0, 256).
      The source only combines bytes with [&], [|], [~] and tests the
      result against zero, so the outcome is the same whether [char] is
      signed or not.
    - A C function that can fail returns a [result]: it either returns
      normally, stops on a failed [assert], or has undefined behaviour
      (a memory access outside the buffer, a signed overflow).
    - Loops are structural recursions on an iteration bound that the
      function computes from its arguments. *)

From Stdlib Require Import ZArith Lia Bool List String Ascii.
From stdpp Require Import base list.

Local Open Scope Z_scope.

(** ** Outcomes of a call *)

Inductive result (A : Type) : Type :=
| Returns (a : A)     (* the call returns normally *)
| Aborted             (* a failed [assert]: the process is aborted *)
| Undefined           (* undefined behaviour of the C abstract machine *)
| OutOfFuel.          (* the iteration bound of a loop of the model ran out;
                         no call produces it, see [rotate_total] *)

Arguments Returns {A} a.
Arguments Aborted {A}.
Arguments Undefined {A}.
Arguments OutOfFuel {A}.

#[global] Instance result_ret : MRet result := fun A a => Returns a.

#[global] Instance result_bind : MBind result := fun A B f m =>
  match m with
  | Returns a => f a
  | Aborted => Aborted
  | Undefined => Undefined
  | OutOfFuel => OutOfFuel
  end.

(** [assert(c)] *)
Definition assert (c : bool) : result unit :=
  if c then Returns tt else Aborted.

(** ** Machine integers *)

Definition SIZE_MAX : Z := 2 ^ 64 - 1.
Definition SSIZE_MAX : Z := 2 ^ 63 - 1.
Definition SSIZE_MIN : Z := - 2 ^ 63.

(** Conversion to [size_t] and the result of [size_t] arithmetic. *)
Definition to_size_t (z : Z) : Z := z mod 2 ^ 64.

(** Conversions to the signed types. *)
Definition to_signed (bits : Z) (z : Z) : Z :=
  (z + 2 ^ (bits - 1)) mod 2 ^ bits - 2 ^ (bits - 1).

Definition to_ssize_t : Z -> Z := to_signed 64.
Definition to_int : Z -> Z := to_signed 32.
Definition to_int8_t : Z -> Z := to_signed 8.

(** The bit pattern kept by a store into a [char]. *)
Definition to_char (z : Z) : Z := z mod 256.

Definition is_size_t (z : Z) : Prop := 0 <= z <= SIZE_MAX.
Definition is_ssize_t (z : Z) : Prop := SSIZE_MIN <= z <= SSIZE_MAX.

Definition in_ssize_t (z : Z) : bool := (SSIZE_MIN <=? z) && (z <=? SSIZE_MAX).

(** Signed arithmetic on [ssize_t]: an overflow is undefined. *)
Definition ssize_add (a b : Z) : result Z :=
  if in_ssize_t (a + b) then Returns (a + b) else Undefined.

Definition ssize_neg (a : Z) : result Z :=
  if in_ssize_t (- a) then Returns (- a) else Undefined.

(** ** The bit array *)

(** [struct bitarray]: the bit count and the packed buffer. *)
Record bitarray : Type := mk_bitarray {
  bit_sz : Z;
  buf : list Z
}.

(** [bitarray->buf[k]] as an rvalue; [k] is a [size_t]. *)
Definition buf_read (b : bitarray) (k : Z) : result Z :=
  if k <? Z.of_nat (length (buf b)) then
    match buf b !! Z.to_nat k with
    | Some x => Returns x
    | None => Undefined
    end
  else Undefined.

(** [bitarray->buf[k] = x]. *)
Definition buf_write (b : bitarray) (k : Z) (x : Z) : result bitarray :=
  if k <? Z.of_nat (length (buf b)) then
    Returns (mk_bitarray (bit_sz b) (<[Z.to_nat k := to_char x]> (buf b)))
  else Undefined.

(** [static char bitmask(const size_t bit_index)] *)
Definition bitmask (bit_index : Z) : Z :=
  to_char (Z.shiftl 1 (bit_index mod 8)).

(** [c ? true : false] for an integer [c]. *)
Definition truth (c : Z) : bool := negb (c =? 0).

(** [size_t bitarray_get_bit_sz(bitarray)] *)
Definition bitarray_get_bit_sz (b : bitarray) : Z := bit_sz b.

(** [bool bitarray_get(bitarray, const size_t bit_index)] *)
Definition bitarray_get (b : bitarray) (bit_index : Z) : result bool :=
  _ ← assert (bit_index <? bit_sz b);
  x ← buf_read b (bit_index / 8);
  mret (truth (Z.land x (bitmask bit_index))).

(** [void bitarray_set(bitarray, const size_t bit_index, const bool value)] *)
Definition bitarray_set (b : bitarray) (bit_index : Z) (value : bool)
  : result bitarray :=
  _ ← assert (bit_index <? bit_sz b);
  x ← buf_read b (bit_index / 8);
  buf_write b (bit_index / 8)
    (Z.lor (Z.land x (Z.lnot (bitmask bit_index)))
           (if value then bitmask bit_index else 0)).

(** [static size_t modulo(const ssize_t n, const size_t m)].
    [%] on signed operands truncates towards zero: [Z.rem]. *)
Definition modulo (n m : Z) : result Z :=
  let signed_m := to_ssize_t m in
  _ ← assert (0 <? signed_m);
  s ← ssize_add (Z.rem n signed_m) signed_m;
  let result := Z.rem s signed_m in
  _ ← assert (0 <=? result);
  mret (to_size_t result).

(** ** The reversal engine *)

(** The loop of [reverse_short]:
    [for(i=left,j=right;i<j;i++,j--)].  The body reads bit [i] of the
    byte saved before the loop, writes it to position [i] and then to
    position [j].  [fuel] bounds the number of iterations; [j - i]
    shrinks by two each time, so [j - i] iterations are never used up
    (lemma [reverse_short_total]). *)
Fixpoint reverse_short_loop (fuel : nat) (byte : Z) (i j : Z) (b : bitarray)
  : result bitarray :=
  if i <? j then
    match fuel with
    | O => OutOfFuel
    | S fuel' =>
        let tmp := truth (Z.land byte (bitmask i)) in
        b1 ← bitarray_set b i (truth (Z.land byte (bitmask i)));
        b2 ← bitarray_set b1 j tmp;
        reverse_short_loop fuel' byte (to_size_t (i + 1)) (to_size_t (j - 1)) b2
    end
  else Returns b.

(** [static void reverse_short(bitarray, const size_t left, const size_t right)] *)
Definition reverse_short (b : bitarray) (left right : Z) : result bitarray :=
  byte ← buf_read b (Z.shiftr left 3);
  reverse_short_loop (Z.to_nat (right - left)) byte left right b.

(** The loop of [reverse_byte]: [for(i=byteleft,j=byteright;i<j;i++,j--)]. *)
Fixpoint reverse_byte_loop (fuel : nat) (i j : Z) (b : bitarray)
  : result bitarray :=
  if i <? j then
    match fuel with
    | O => OutOfFuel
    | S fuel' =>
        tmp ← buf_read b i;
        x ← buf_read b j;
        b1 ← buf_write b i x;
        b2 ← buf_write b1 j tmp;
        b3 ← reverse_short b2 (to_size_t (8 * i)) (to_size_t (8 * i + 7));
        b4 ← reverse_short b3 (to_size_t (8 * j)) (to_size_t (8 * j + 7));
        reverse_byte_loop fuel' (to_size_t (i + 1)) (to_size_t (j - 1)) b4
    end
  else Returns b.

(** [static void reverse_byte(bitarray, const size_t byteleft, const size_t byteright)] *)
Definition reverse_byte (b : bitarray) (byteleft byteright : Z)
  : result bitarray :=
  reverse_byte_loop (Z.to_nat (byteright - byteleft)) byteleft byteright b.

(** The two split points of [reverse], as stored in its [int8_t]
    locals. *)
Definition wholel_of (left : Z) : Z :=
  to_int8_t (to_size_t (to_size_t (left + 7) / 8 * 8)).

Definition wholer_of (right : Z) : Z :=
  to_int8_t (to_size_t (right - right mod 8)).

(** [static void reverse(bitarray, const size_t left, const size_t right)].
    [wholel - 1], [wholel / 8] and [wholer / 8 - 1] are computed in [int]
    (division truncates: [Z.quot]) and converted to [size_t] when
    passed. *)
Definition reverse (b : bitarray) (left right : Z) : result bitarray :=
  let wholel := wholel_of left in
  let wholer := wholer_of right in
  byte1 ← buf_read b (left / 8);
  byte2 ← buf_read b (right / 8);
  b1 ← reverse_short b left (to_size_t (wholel - 1));
  b2 ← reverse_short b1 (to_size_t wholer) right;
  reverse_byte b2 (to_size_t (Z.quot wholel 8))
                  (to_size_t (Z.quot wholer 8 - 1)).

(** ** The rotation orchestrator *)

(** [static void bitarray_rotate_left(bitarray, bit_offset, bit_length,
    bit_left_amount)] *)
Definition bitarray_rotate_left (b : bitarray)
    (bit_offset bit_length bit_left_amount : Z) : result bitarray :=
  let l := bit_offset in
  let m := to_size_t (bit_offset + bit_left_amount) in
  let r := to_size_t (to_size_t (bit_offset + bit_length) - 1) in
  if bit_left_amount =? 0 then Returns b
  else
    b1 ← reverse b l (to_size_t (m - 1));
    b2 ← reverse b1 m r;
    reverse b2 l r.

(** [void bitarray_rotate(bitarray, const size_t bit_offset,
    const size_t bit_length, const ssize_t bit_right_amount)].
    The left amount is computed, and stored in an [int], before the
    test on [bit_length]. *)
Definition bitarray_rotate (b : bitarray)
    (bit_offset bit_length bit_right_amount : Z) : result bitarray :=
  _ ← assert (to_size_t (bit_offset + bit_length) <=? bit_sz b);
  neg ← ssize_neg bit_right_amount;
  left_amount ← modulo neg bit_length;
  let bit_left_amount := to_int left_amount in
  if (bit_length =? 0) || (bit_left_amount =? 0) then Returns b
  else bitarray_rotate_left b bit_offset bit_length (to_size_t bit_left_amount).

(** ** Construction and the random fill *)

(** [bitarray_t* bitarray_new(const size_t bit_sz)].  The two booleans
    say whether [calloc], then [malloc], succeed; [None] is the [NULL]
    result. *)
Definition bitarray_new (calloc_ok malloc_ok : bool) (bit_sz : Z)
  : option bitarray :=
  if calloc_ok then
    if malloc_ok then
      Some (mk_bitarray bit_sz
              (repeat 0 (Z.to_nat (to_size_t (bit_sz + 7) / 8))))
    else None
  else None.

(** [ptr[i] = v] through the [int32_t*] view of the buffer: four bytes,
    least significant first (the byte order of the LP64 targets the
    program is built for). *)
Definition store_int32 (b : bitarray) (i : Z) (v : Z) : result bitarray :=
  b0 ← buf_write b (4 * i) v;
  b1 ← buf_write b0 (4 * i + 1) (Z.shiftr v 8);
  b2 ← buf_write b1 (4 * i + 2) (Z.shiftr v 16);
  buf_write b2 (4 * i + 3) (Z.shiftr v 24).

(** The loop of [bitarray_randfill]:
    [for (int64_t i=0; i<bitarray->bit_sz/32 + 1; i++)].
    [rnd i] is the value the [i]-th call of [rand()] returns. *)
Fixpoint randfill_loop (fuel : nat) (rnd : Z -> Z) (i : Z) (b : bitarray)
  : result bitarray :=
  if i <? bit_sz b / 32 + 1 then
    match fuel with
    | O => OutOfFuel
    | S fuel' =>
        b' ← store_int32 b i (rnd i);
        randfill_loop fuel' rnd (i + 1) b'
    end
  else Returns b.

(** [void bitarray_randfill(bitarray)] *)
Definition bitarray_randfill (rnd : Z -> Z) (b : bitarray) : result bitarray :=
  randfill_loop (Z.to_nat (bit_sz b / 32 + 1)) rnd 0 b.

(** ** Reading arrays as the tests write them *)

(** The bit string of an array, index 0 first; [None] where a bit cannot
    be read. *)
Definition bits_of (b : bitarray) : list (option bool) :=
  map (fun i => match bitarray_get b (Z.of_nat i) with
                | Returns v => Some v
                | _ => None
                end)
      (seq 0 (Z.to_nat (bit_sz b))).

(** The array holding a given bit string: bit [i] goes to byte [i / 8],
    position [i mod 8] from the least significant end. *)
Fixpoint pack_byte (bits : list bool) : Z :=
  match bits with
  | [] => 0
  | v :: rest => Z.b2z v + 2 * pack_byte rest
  end.

Definition of_bits (bits : list bool) : bitarray :=
  mk_bitarray (Z.of_nat (length bits))
    (map (fun k => pack_byte (take 8 (drop (8 * k) bits)))
         (seq 0 (Nat.div (length bits + 7) 8))).

(** The invariant of the data model: the buffer has [ceil(bit_sz/8)]
    bytes. *)
Definition wf (b : bitarray) : Prop :=
  0 <= bit_sz b /\ Z.of_nat (length (buf b)) = (bit_sz b + 7) / 8.

(** ** Sequences of public operations *)

Inductive op : Type :=
| OpGet (bit_index : Z)
| OpSet (bit_index : Z) (value : bool)
| OpRotate (bit_offset bit_length bit_right_amount : Z)
| OpRandfill (rnd : Z -> Z).

Definition run_op (o : op) (b : bitarray) : result bitarray :=
  match o with
  | OpGet i => _ ← bitarray_get b i; mret b
  | OpSet i v => bitarray_set b i v
  | OpRotate off len amount => bitarray_rotate b off len amount
  | OpRandfill rnd => bitarray_randfill rnd b
  end.

Fixpoint run_ops (os : list op) (b : bitarray) : result bitarray :=
  match os with
  | [] => Returns b
  | o :: rest => b' ← run_op o b; run_ops rest b'
  end.

(** ** The split of a reversal as the specification words it

    A reversal of [left, right] with split points [whole_left] and
    [whole_right]: the boundary bits [left, whole_left - 1] and
    [whole_right + 1, right] go to the single-byte routine, the bytes
    [whole_left / 8, whole_right / 8] to the byte-level routine.  The
    indices are the mathematical ones, without machine conversions. *)
Definition reverse_split (whole_left whole_right : Z)
    (b : bitarray) (left right : Z) : result bitarray :=
  b1 ← reverse_short b left (whole_left - 1);
  b2 ← reverse_short b1 (whole_right + 1) right;
  reverse_byte b2 (whole_left / 8) (whole_right / 8).

(** [ceil(n / 8) * 8] *)
Definition ceil8 (n : Z) : Z := (n + 7) / 8 * 8.

(** The split points the specification names. *)
Definition spec_whole_left (left : Z) : Z := ceil8 (left + 1).
Definition spec_whole_right (right : Z) : Z := right - right mod 8 - 1.

(** The split points of the source, [((left+7)/8)*8] and
    [right-right%8], as mathematical integers. *)
Definition code_whole_left (left : Z) : Z := ceil8 left.

(** ** What the specification asks of a rotation and of a reversal

    Both on bit strings, index 0 first.  A rotation moves the bit at
    range position [p] to range position [(p + right_amount) mod length],
    so the bit that ends at position [q] comes from
    [(q - right_amount) mod length]; a reversal of [left, right] brings
    to index [i] the bit of index [left + right - i].  Bits outside the
    range stay. *)
Definition spec_rotate (bits : list bool) (offset length : nat)
    (right_amount : Z) : list bool :=
  imap (fun i v =>
          if (offset <=? i)%nat && (i <? offset + length)%nat then
            let q := Z.of_nat (i - offset) in
            let p := (q - right_amount) mod Z.of_nat length in
            nth (offset + Z.to_nat p) bits false
          else v)
       bits.

Definition spec_reverse (bits : list bool) (left right : nat) : list bool :=
  imap (fun i v =>
          if (left <=? i)%nat && (i <=? right)%nat then
            nth (left + right - i) bits false
          else v)
       bits.

(** Bit strings written as in the tests: ["1101"] is
    [true; true; false; true]. *)
Fixpoint from_digits (s : string) : list bool :=
  match s with
  | EmptyString => []
  | String c rest => Ascii.eqb c "1"%char :: from_digits rest
  end.

(** The bit string an array holds, [None] if some bit cannot be read. *)
Definition read_all (b : bitarray) : option (list bool) :=
  mapM id (bits_of b).

(** ** The arrays of the scenarios *)

(** The two scenarios of the specification. *)
Definition rotate_scenario : bitarray := of_bits (from_digits "1101001011").
Definition reverse_scenario : bitarray := of_bits (from_digits "11010010").

(** A 16-bit array whose range [9, 13) holds [1101], one with only
    bit 10 set, and a 32-bit array with only bit 9 set. *)
Definition range_1101 : bitarray := of_bits (from_digits "0000000001101000").
Definition only_bit_10 : bitarray := of_bits (from_digits "0000000000100000").
Definition only_bit_9 : bitarray := mk_bitarray 32 [0; 2; 0; 0].

(** A run of the public operations on a fresh 31-bit array. *)
Definition sample_run : list op :=
  [OpSet 9 true; OpSet 10 true; OpGet 9; OpRotate 9 4 1;
   OpRandfill (fun i => 305419896 + i)].

(** ** The one-bit rotation *)

(** The loop of [bitarray_rotate_left_one]:
    [for (i = bit_offset; i + 1 < bit_offset + bit_length; i++)].
    It returns the final [i] with the array. *)
Fixpoint rotate_left_one_loop (fuel : nat) (bound : Z) (i : Z) (b : bitarray)
  : result (Z * bitarray) :=
  if to_size_t (i + 1) <? bound then
    match fuel with
    | O => OutOfFuel
    | S fuel' =>
        v ← bitarray_get b (to_size_t (i + 1));
        b1 ← bitarray_set b i v;
        rotate_left_one_loop fuel' bound (to_size_t (i + 1)) b1
    end
  else Returns (i, b).

(** [static void bitarray_rotate_left_one(bitarray, const size_t bit_offset,
    const size_t bit_length)] *)
Definition bitarray_rotate_left_one (b : bitarray) (bit_offset bit_length : Z)
  : result bitarray :=
  first_bit ← bitarray_get b bit_offset;
  let bound := to_size_t (bit_offset + bit_length) in
  ib ← rotate_left_one_loop (S (Z.to_nat bound)) bound bit_offset b;
  bitarray_set ib.2 ib.1 first_bit.

(** ** Views of an array used in the statements *)

(** Bit [i] as it is stored: position [i mod 8] of byte [i / 8]. *)
Definition bit_at (b : bitarray) (i : Z) : bool :=
  match buf b !! Z.to_nat (i / 8) with
  | Some x => Z.testbit x (i mod 8)
  | None => false
  end.

(** Every element of the buffer is the bit pattern of a [char]. *)
Definition bytes_ok (b : bitarray) : Prop :=
  Forall (fun x => 0 <= x < 256) (buf b).

(** The byte [bitarray_set] stores for bit position [k] of a byte [x]
    ([k] is [bit_index % 8], the mask is [2 ^ k]). *)
Definition with_bit (x k : Z) (v : bool) : Z :=
  to_char (Z.lor (Z.land x (Z.lnot (2 ^ k))) (if v then 2 ^ k else 0)).

(** The bytes of [b'] with an index outside [lo, hi] are those of [b]. *)
Definition bytes_outside_kept (lo hi : Z) (b b' : bitarray) : Prop :=
  forall n, 0 <= n -> n < lo \/ hi < n ->
            buf b' !! Z.to_nat n = buf b !! Z.to_nat n.

(** * Properties *)

(** ** Basic facts on the result monad and machine integers *)

Lemma bind_Returns {A B} (m : result A) (f : A -> result B) (y : B) :
  m ≫= f = Returns y -> exists x, m = Returns x /\ f x = Returns y.
Proof. destruct m; simpl; intros H; try discriminate. eauto. Qed.

(** Inversion of a bind that returns. *)
Ltac bind_inv H :=
  let x := fresh "b" in
  let H1 := fresh "H" in
  apply bind_Returns in H as (x & H1 & H).

Lemma assert_true (c : bool) : c = true -> assert c = Returns tt.
Proof. intros ->. reflexivity. Qed.

Lemma assert_false (c : bool) : c = false -> assert c = Aborted.
Proof. intros ->. reflexivity. Qed.

Lemma to_size_t_small z : 0 <= z <= SIZE_MAX -> to_size_t z = z.
Proof. unfold to_size_t, SIZE_MAX. intros H. apply Z.mod_small. lia. Qed.

Lemma to_signed_small bits z :
  0 < bits -> - 2 ^ (bits - 1) <= z < 2 ^ (bits - 1) -> to_signed bits z = z.
Proof.
  intros Hb Hz. unfold to_signed.
  assert (Hp : 2 ^ bits = 2 * 2 ^ (bits - 1)).
  { rewrite <- Z.pow_succ_r by lia. f_equal. lia. }
  rewrite Z.mod_small by lia. lia.
Qed.

Lemma to_ssize_t_small z : SSIZE_MIN <= z <= SSIZE_MAX -> to_ssize_t z = z.
Proof.
  unfold SSIZE_MIN, SSIZE_MAX, to_ssize_t. intros H.
  apply to_signed_small; [lia|]. change (64 - 1) with 63. lia.
Qed.

Lemma to_int8_t_small z : -128 <= z <= 127 -> to_int8_t z = z.
Proof.
  intros H. unfold to_int8_t. apply to_signed_small; [lia|].
  change (2 ^ (8 - 1)) with 128. lia.
Qed.

(** ** The modulo helper *)

Lemma rem_plus_mod n m : 0 < m -> Z.rem (Z.rem n m + m) m = n mod m.
Proof.
  intros Hm.
  assert (Hr : - m < Z.rem n m < m).
  { pose proof (Z.rem_bound_abs n m ltac:(lia)). lia. }
  rewrite Z.rem_mod_nonneg by lia.
  rewrite Z.add_mod, Z.mod_same, Z.add_0_r, Z.mod_mod by lia.
  pose proof (Z.quot_rem' n m) as Hq.
  rewrite Hq at 2.
  rewrite Z.add_comm, Z.mul_comm, Z.mod_add by lia. reflexivity.
Qed.

Lemma modulo_returns n m :
  0 < m <= SSIZE_MAX -> Z.rem n m + m <= SSIZE_MAX ->
  modulo n m = Returns (n mod m).
Proof.
  intros Hm Hov. unfold modulo.
  rewrite to_ssize_t_small by (unfold SSIZE_MIN, SSIZE_MAX in *; lia).
  rewrite assert_true by lia. simpl.
  assert (Hr : - m < Z.rem n m < m).
  { pose proof (Z.rem_bound_abs n m ltac:(lia)). lia. }
  unfold ssize_add, in_ssize_t.
  replace (SSIZE_MIN <=? Z.rem n m + m) with true
    by (symmetry; apply Z.leb_le; unfold SSIZE_MIN; lia).
  replace (Z.rem n m + m <=? SSIZE_MAX) with true
    by (symmetry; apply Z.leb_le; lia).
  simpl. rewrite rem_plus_mod by lia.
  pose proof (Z.mod_pos_bound n m ltac:(lia)) as Hb.
  rewrite assert_true by (apply Z.leb_le; lia). simpl.
  unfold mret, result_ret. f_equal.
  apply to_size_t_small. unfold SIZE_MAX, SSIZE_MAX in *. lia.
Qed.

(** C6, as amended.  For a divisor [m] that is positive as an [ssize_t]
    and a dividend [n] for which the intermediate sum [(n % m) + m] does
    not overflow (always so when [m <= 2^62]), [modulo n m] returns the
    unique [r] with [0 <= r < m] and [r ≡ n (mod m)]. *)
Theorem modulo_correct (n m : Z) :
  0 < m <= SSIZE_MAX -> Z.rem n m + m <= SSIZE_MAX ->
  exists r, modulo n m = Returns r /\ 0 <= r < m /\ (m | r - n) /\
            forall r', 0 <= r' < m -> (m | r' - n) -> r' = r.
Proof.
  intros Hm Hov. exists (n mod m). split; [now apply modulo_returns|].
  pose proof (Z.mod_pos_bound n m ltac:(lia)) as Hb.
  split; [lia|]. split.
  - exists (- (n / m)). pose proof (Z.div_mod n m ltac:(lia)). lia.
  - intros r' Hr' [q Hq].
    replace n with (r' + (- q) * m) by lia.
    rewrite Z.mod_add by lia. symmetry. apply Z.mod_small. lia.
Qed.

Lemma modulo_correct_witness :
  exists r, modulo (-3) 10 = Returns r /\ 0 <= r < 10 /\ (10 | r - -3) /\
            forall r', 0 <= r' < 10 -> (10 | r' - -3) -> r' = r.
Proof. apply (modulo_correct (-3) 10); vm_compute; intuition discriminate. Defined.

(** C6, as stated, fails: [2^63] is a positive [size_t], and the call
    stops on [assert(signed_m > 0)]. *)
Lemma modulo_large_divisor_aborts :
  0 < 2 ^ 63 <= SIZE_MAX /\ is_ssize_t 0 /\
  modulo 0 (2 ^ 63) = Aborted /\
  ~ exists r, modulo 0 (2 ^ 63) = Returns r.
Proof.
  repeat split; try (vm_compute; congruence).
  intros [r H]. vm_compute in H. discriminate.
Qed.

(** ** Single-bit accessors *)

Lemma bitmask_pow2 i : bitmask i = 2 ^ (i mod 8).
Proof.
  unfold bitmask, to_char. rewrite Z.shiftl_1_l.
  pose proof (Z.mod_pos_bound i 8 ltac:(lia)) as Hi.
  apply Z.mod_small. split; [apply Z.pow_nonneg; lia|].
  change 256 with (2 ^ 8). apply Z.pow_lt_mono_r; lia.
Qed.

Lemma truth_land_pow2 x k : 0 <= k -> truth (Z.land x (2 ^ k)) = Z.testbit x k.
Proof.
  intros Hk. unfold truth.
  assert (H : Z.land x (2 ^ k) = if Z.testbit x k then 2 ^ k else 0).
  { apply Z.bits_inj'. intros t Ht.
    rewrite Z.land_spec, Z.pow2_bits_eqb by lia.
    destruct (Z.eqb_spec k t) as [->|Hne].
    - destruct (Z.testbit x t); simpl.
      + rewrite Z.pow2_bits_eqb, Z.eqb_refl by lia. reflexivity.
      + rewrite Z.bits_0. reflexivity.
    - rewrite andb_false_r. destruct (Z.testbit x k).
      + rewrite Z.pow2_bits_eqb by lia. symmetry. now apply Z.eqb_neq.
      + rewrite Z.bits_0. reflexivity. }
  rewrite H. destruct (Z.testbit x k); [|reflexivity].
  assert (0 < 2 ^ k) by (apply Z.pow_pos_nonneg; lia).
  destruct (Z.eqb_spec (2 ^ k) 0); [lia|reflexivity].
Qed.

(** The byte [bitarray_set] stores, bit by bit. *)
Lemma testbit_set_byte x k (v : bool) t :
  0 <= k < 8 -> 0 <= t < 8 ->
  Z.testbit (to_char (Z.lor (Z.land x (Z.lnot (2 ^ k)))
                            (if v then 2 ^ k else 0))) t
  = if t =? k then v else Z.testbit x t.
Proof.
  intros Hk Ht. unfold to_char. change 256 with (2 ^ 8).
  rewrite Z.mod_pow2_bits_low by lia.
  rewrite Z.lor_spec, Z.land_spec, Z.lnot_spec by lia.
  rewrite Z.pow2_bits_eqb by lia.
  rewrite (Z.eqb_sym k t).
  destruct (Z.eqb_spec t k) as [->|Hne]; simpl.
  - rewrite andb_false_r. simpl. destruct v.
    + rewrite Z.pow2_bits_eqb, Z.eqb_refl by lia. reflexivity.
    + apply Z.bits_0.
  - rewrite andb_true_r. destruct v.
    + rewrite Z.pow2_bits_eqb by lia.
      replace (k =? t) with false by (symmetry; apply Z.eqb_neq; lia).
      apply orb_false_r.
    + rewrite Z.bits_0. apply orb_false_r.
Qed.

Lemma buf_read_lookup b k x :
  0 <= k -> buf b !! Z.to_nat k = Some x -> buf_read b k = Returns x.
Proof.
  intros Hk Hx. unfold buf_read. rewrite Hx.
  apply lookup_lt_Some in Hx.
  replace (k <? Z.of_nat (length (buf b))) with true; [reflexivity|].
  symmetry. apply Z.ltb_lt. lia.
Qed.

Lemma wf_byte_index b i :
  wf b -> 0 <= i < bit_sz b -> (Z.to_nat (i / 8) < length (buf b))%nat.
Proof.
  intros [_ Hlen] Hi.
  assert (i / 8 < (bit_sz b + 7) / 8).
  { apply Z.div_lt_upper_bound; [lia|].
    pose proof (Z.mul_div_le (bit_sz b + 7) 8 ltac:(lia)).
    pose proof (Z.mod_pos_bound (bit_sz b + 7) 8 ltac:(lia)).
    pose proof (Z.div_mod (bit_sz b + 7) 8 ltac:(lia)). lia. }
  assert (0 <= i / 8) by (apply Z.div_pos; lia). lia.
Qed.

Lemma bitarray_get_returns b i x :
  0 <= i < bit_sz b -> buf b !! Z.to_nat (i / 8) = Some x ->
  bitarray_get b i = Returns (Z.testbit x (i mod 8)).
Proof.
  intros Hi Hx. unfold bitarray_get.
  rewrite assert_true by (apply Z.ltb_lt; lia). simpl.
  rewrite (buf_read_lookup b (i / 8) x) by (try apply Z.div_pos; lia || assumption).
  simpl. unfold mret, result_ret. f_equal.
  rewrite bitmask_pow2. apply truth_land_pow2.
  apply Z.mod_pos_bound. lia.
Qed.

Lemma bitarray_set_returns b i v x :
  0 <= i < bit_sz b -> buf b !! Z.to_nat (i / 8) = Some x ->
  bitarray_set b i v =
  Returns (mk_bitarray (bit_sz b)
    (<[Z.to_nat (i / 8) :=
         to_char (Z.lor (Z.land x (Z.lnot (2 ^ (i mod 8))))
                        (if v then 2 ^ (i mod 8) else 0))]> (buf b))).
Proof.
  intros Hi Hx. unfold bitarray_set.
  rewrite assert_true by (apply Z.ltb_lt; lia). simpl.
  rewrite (buf_read_lookup b (i / 8) x) by (try apply Z.div_pos; lia || assumption).
  simpl. unfold buf_write. rewrite bitmask_pow2.
  apply lookup_lt_Some in Hx.
  replace (i / 8 <? Z.of_nat (length (buf b))) with true; [reflexivity|].
  symmetry. apply Z.ltb_lt.
  assert (0 <= i / 8) by (apply Z.div_pos; lia). lia.
Qed.

(** C7.  On an array that satisfies the data-model invariant, a [set] at
    a valid index returns; afterwards [get] at that index returns the
    value written, and [get] at every other valid index returns what it
    returned before. *)
Theorem get_set (b : bitarray) (i : Z) (v : bool) :
  wf b -> 0 <= i < bit_sz b ->
  exists b', bitarray_set b i v = Returns b' /\
             bitarray_get b' i = Returns v /\
             forall j, 0 <= j < bit_sz b -> j <> i ->
                       bitarray_get b' j = bitarray_get b j.
Proof.
  intros Hwf Hi.
  pose proof (wf_byte_index b i Hwf Hi) as Hlt.
  destruct (lookup_lt_is_Some_2 (buf b) _ Hlt) as [x Hx].
  pose proof (Z.mod_pos_bound i 8 ltac:(lia)) as Hk.
  eexists. split; [apply (bitarray_set_returns b i v x Hi Hx)|]. split.
  - erewrite bitarray_get_returns; simpl; [|lia|].
    2: { apply list_lookup_insert_eq. exact Hlt. }
    rewrite testbit_set_byte, Z.eqb_refl by lia. reflexivity.
  - intros j Hj Hne.
    pose proof (wf_byte_index b j Hwf Hj) as Hltj.
    destruct (lookup_lt_is_Some_2 (buf b) _ Hltj) as [y Hy].
    pose proof (Z.mod_pos_bound j 8 ltac:(lia)) as Hkj.
    rewrite (bitarray_get_returns b j y Hj Hy).
    destruct (Z.eq_dec (j / 8) (i / 8)) as [Heq|Hdiff].
    + rewrite Heq in Hy. assert (y = x) by congruence. subst y.
      erewrite bitarray_get_returns; simpl; [|lia|].
      2: { rewrite Heq. apply list_lookup_insert_eq. exact Hlt. }
      rewrite testbit_set_byte by lia.
      replace (j mod 8 =? i mod 8) with false; [reflexivity|].
      symmetry. apply Z.eqb_neq. intros Hm.
      pose proof (Z.div_mod j 8 ltac:(lia)).
      pose proof (Z.div_mod i 8 ltac:(lia)). lia.
    + erewrite bitarray_get_returns; simpl; [reflexivity|lia|].
      rewrite list_lookup_insert_ne; [exact Hy|].
      assert (0 <= i / 8) by (apply Z.div_pos; lia).
      assert (0 <= j / 8) by (apply Z.div_pos; lia). lia.
Qed.

Lemma get_set_witness :
  exists b', bitarray_set rotate_scenario 3 false = Returns b' /\
             bitarray_get b' 3 = Returns false /\
             forall j, 0 <= j < bit_sz rotate_scenario -> j <> 3 ->
                       bitarray_get b' j = bitarray_get rotate_scenario j.
Proof.
  apply (get_set rotate_scenario 3 false).
  - split; vm_compute; congruence.
  - vm_compute. split; congruence.
Defined.

(** ** The size never changes *)

Lemma buf_write_bit_sz b k x b' :
  buf_write b k x = Returns b' -> bit_sz b' = bit_sz b.
Proof.
  unfold buf_write. destruct (k <? _); [|discriminate].
  intros [= <-]. reflexivity.
Qed.

Lemma bitarray_set_bit_sz b i v b' :
  bitarray_set b i v = Returns b' -> bit_sz b' = bit_sz b.
Proof.
  unfold bitarray_set. intros H. bind_inv H. bind_inv H.
  now apply buf_write_bit_sz in H.
Qed.

Lemma reverse_short_loop_bit_sz fuel byte : forall i j b b',
  reverse_short_loop fuel byte i j b = Returns b' -> bit_sz b' = bit_sz b.
Proof.
  induction fuel as [|fuel IH]; intros i j b b'; simpl;
    destruct (i <? j); try discriminate; try (intros [= <-]; reflexivity).
  intros H. bind_inv H. bind_inv H.
  apply IH in H. apply bitarray_set_bit_sz in H0, H1. congruence.
Qed.

Lemma reverse_short_bit_sz b left right b' :
  reverse_short b left right = Returns b' -> bit_sz b' = bit_sz b.
Proof.
  unfold reverse_short. intros H. bind_inv H.
  now apply reverse_short_loop_bit_sz in H.
Qed.

Lemma reverse_byte_loop_bit_sz fuel : forall i j b b',
  reverse_byte_loop fuel i j b = Returns b' -> bit_sz b' = bit_sz b.
Proof.
  induction fuel as [|fuel IH]; intros i j b b'; simpl;
    destruct (i <? j); try discriminate; try (intros [= <-]; reflexivity).
  intros H. do 6 bind_inv H.
  apply IH in H. apply buf_write_bit_sz in H2, H3.
  apply reverse_short_bit_sz in H4, H5. congruence.
Qed.

Lemma reverse_bit_sz b left right b' :
  reverse b left right = Returns b' -> bit_sz b' = bit_sz b.
Proof.
  unfold reverse, reverse_byte. intros H. do 4 bind_inv H.
  apply reverse_byte_loop_bit_sz in H.
  apply reverse_short_bit_sz in H2, H3. congruence.
Qed.

Lemma bitarray_rotate_left_bit_sz b off len amount b' :
  bitarray_rotate_left b off len amount = Returns b' -> bit_sz b' = bit_sz b.
Proof.
  unfold bitarray_rotate_left. destruct (amount =? 0).
  - intros [= <-]. reflexivity.
  - intros H. do 2 bind_inv H.
    apply reverse_bit_sz in H, H0, H1. congruence.
Qed.

Lemma bitarray_rotate_bit_sz b off len amount b' :
  bitarray_rotate b off len amount = Returns b' -> bit_sz b' = bit_sz b.
Proof.
  unfold bitarray_rotate. intros H. do 3 bind_inv H.
  destruct (_ || _).
  - injection H as <-. reflexivity.
  - now apply bitarray_rotate_left_bit_sz in H.
Qed.

Lemma store_int32_bit_sz b i v b' :
  store_int32 b i v = Returns b' -> bit_sz b' = bit_sz b.
Proof.
  unfold store_int32. intros H. do 3 bind_inv H.
  apply buf_write_bit_sz in H, H0, H1, H2. congruence.
Qed.

Lemma randfill_loop_bit_sz fuel rnd : forall i b b',
  randfill_loop fuel rnd i b = Returns b' -> bit_sz b' = bit_sz b.
Proof.
  induction fuel as [|fuel IH]; intros i b b'; simpl;
    destruct (i <? _); try discriminate; try (intros [= <-]; reflexivity).
  intros H. bind_inv H. apply IH in H. apply store_int32_bit_sz in H0.
  congruence.
Qed.

Lemma run_op_bit_sz o b b' :
  run_op o b = Returns b' -> bit_sz b' = bit_sz b.
Proof.
  destruct o; simpl; intros H.
  - bind_inv H. injection H as <-. reflexivity.
  - now apply bitarray_set_bit_sz in H.
  - now apply bitarray_rotate_bit_sz in H.
  - now apply randfill_loop_bit_sz in H.
Qed.

Lemma run_ops_bit_sz os : forall b b',
  run_ops os b = Returns b' -> bit_sz b' = bit_sz b.
Proof.
  induction os as [|o os IH]; simpl; intros b b' H.
  - injection H as <-. reflexivity.
  - bind_inv H. apply IH in H. apply run_op_bit_sz in H0. congruence.
Qed.

(** C10.  An array that [bitarray_new n] returns reports the size [n],
    and it still reports [n] after any sequence of [get], [set],
    [rotate] and [randfill] calls that return. *)
Theorem size_is_fixed (calloc_ok malloc_ok : bool) (n : Z) (h h' : bitarray)
    (os : list op) :
  bitarray_new calloc_ok malloc_ok n = Some h ->
  run_ops os h = Returns h' ->
  bitarray_get_bit_sz h = n /\ bitarray_get_bit_sz h' = n.
Proof.
  intros Hnew Hrun. unfold bitarray_get_bit_sz.
  apply run_ops_bit_sz in Hrun. rewrite Hrun.
  unfold bitarray_new in Hnew.
  destruct calloc_ok, malloc_ok; try discriminate.
  injection Hnew as <-. split; reflexivity.
Qed.

Lemma size_is_fixed_witness :
  bitarray_new true true 31 = Some (mk_bitarray 31 [0; 0; 0; 0]) /\
  run_ops sample_run (mk_bitarray 31 [0; 0; 0; 0])
    = Returns (mk_bitarray 31 [120; 86; 52; 18]) /\
  bitarray_get_bit_sz (mk_bitarray 31 [0; 0; 0; 0]) = 31 /\
  bitarray_get_bit_sz (mk_bitarray 31 [120; 86; 52; 18]) = 31.
Proof.
  split; [reflexivity|]. split; [reflexivity|].
  apply (size_is_fixed true true 31 (mk_bitarray 31 [0; 0; 0; 0])
           (mk_bitarray 31 [120; 86; 52; 18]) sample_run); reflexivity.
Defined.

(** ** No call runs out of its iteration bound *)

Lemma to_size_t_range z : 0 <= to_size_t z <= SIZE_MAX.
Proof.
  unfold to_size_t, SIZE_MAX.
  pose proof (Z.mod_pos_bound z (2 ^ 64) ltac:(lia)). lia.
Qed.

Lemma buf_read_fuel b k : buf_read b k <> OutOfFuel.
Proof.
  unfold buf_read. destruct (k <? _); [|discriminate].
  destruct (buf b !! _); discriminate.
Qed.

Lemma buf_write_fuel b k x : buf_write b k x <> OutOfFuel.
Proof. unfold buf_write. destruct (k <? _); discriminate. Qed.

Lemma assert_fuel c : assert c <> OutOfFuel.
Proof. destruct c; discriminate. Qed.

Lemma bind_fuel {A B} (m : result A) (f : A -> result B) :
  m <> OutOfFuel -> (forall x, m = Returns x -> f x <> OutOfFuel) ->
  m ≫= f <> OutOfFuel.
Proof. destruct m; simpl; intros Hm Hf; auto; discriminate. Qed.

Lemma bitarray_set_fuel b i v : bitarray_set b i v <> OutOfFuel.
Proof.
  unfold bitarray_set. apply bind_fuel; [apply assert_fuel|intros _ _].
  apply bind_fuel; [apply buf_read_fuel|intros x _]. apply buf_write_fuel.
Qed.

Lemma reverse_short_loop_fuel fuel byte : forall i j b,
  0 <= i -> j <= SIZE_MAX -> j - i <= Z.of_nat fuel ->
  reverse_short_loop fuel byte i j b <> OutOfFuel.
Proof.
  induction fuel as [|fuel IH]; intros i j b Hi Hj Hfuel; simpl;
    destruct (Z.ltb_spec i j); try discriminate; [lia|].
  apply bind_fuel; [apply bitarray_set_fuel|intros b1 _].
  apply bind_fuel; [apply bitarray_set_fuel|intros b2 _].
  rewrite !to_size_t_small by lia. apply IH; lia.
Qed.

Lemma reverse_short_total b left right :
  0 <= left -> right <= SIZE_MAX -> reverse_short b left right <> OutOfFuel.
Proof.
  intros Hl Hr. unfold reverse_short.
  apply bind_fuel; [apply buf_read_fuel|intros byte _].
  apply reverse_short_loop_fuel; lia.
Qed.

Lemma reverse_byte_loop_fuel fuel : forall i j b,
  0 <= i -> j <= SIZE_MAX -> j - i <= Z.of_nat fuel ->
  reverse_byte_loop fuel i j b <> OutOfFuel.
Proof.
  induction fuel as [|fuel IH]; intros i j b Hi Hj Hfuel; simpl;
    destruct (Z.ltb_spec i j); try discriminate; [lia|].
  apply bind_fuel; [apply buf_read_fuel|intros tmp _].
  apply bind_fuel; [apply buf_read_fuel|intros x _].
  apply bind_fuel; [apply buf_write_fuel|intros b1 _].
  apply bind_fuel; [apply buf_write_fuel|intros b2 _].
  apply bind_fuel; [apply reverse_short_total; apply to_size_t_range|intros b3 _].
  apply bind_fuel; [apply reverse_short_total; apply to_size_t_range|intros b4 _].
  rewrite !to_size_t_small by lia. apply IH; lia.
Qed.

Lemma reverse_byte_total b byteleft byteright :
  0 <= byteleft -> byteright <= SIZE_MAX ->
  reverse_byte b byteleft byteright <> OutOfFuel.
Proof. intros. unfold reverse_byte. apply reverse_byte_loop_fuel; lia. Qed.

Lemma reverse_total b left right :
  0 <= left -> right <= SIZE_MAX -> reverse b left right <> OutOfFuel.
Proof.
  intros Hl Hr. unfold reverse.
  apply bind_fuel; [apply buf_read_fuel|intros byte1 _].
  apply bind_fuel; [apply buf_read_fuel|intros byte2 _].
  apply bind_fuel; [apply reverse_short_total; [lia|apply to_size_t_range]|intros b1 _].
  apply bind_fuel; [apply reverse_short_total; [apply to_size_t_range|lia]|intros b2 _].
  apply reverse_byte_total; apply to_size_t_range.
Qed.

Lemma modulo_fuel n m : modulo n m <> OutOfFuel.
Proof.
  unfold modulo. apply bind_fuel; [apply assert_fuel|intros _ _].
  apply bind_fuel; [unfold ssize_add; destruct (in_ssize_t _); discriminate|].
  intros s _. apply bind_fuel; [apply assert_fuel|discriminate].
Qed.

(** Every call of [bitarray_rotate] with [size_t] arguments returns,
    aborts or is undefined: the iteration bounds of the model are never
    exhausted. *)
Lemma rotate_total b bit_offset bit_length bit_right_amount :
  is_size_t bit_offset ->
  bitarray_rotate b bit_offset bit_length bit_right_amount <> OutOfFuel.
Proof.
  intros [Ho Ho']. unfold bitarray_rotate.
  apply bind_fuel; [apply assert_fuel|intros _ _].
  apply bind_fuel; [unfold ssize_neg; destruct (in_ssize_t _); discriminate|].
  intros neg _. apply bind_fuel; [apply modulo_fuel|intros left_amount _].
  destruct (_ || _); [discriminate|].
  unfold bitarray_rotate_left. destruct (_ =? 0); [discriminate|].
  apply bind_fuel; [apply reverse_total; [lia|apply to_size_t_range]|intros b1 _].
  apply bind_fuel; [apply reverse_total; apply to_size_t_range|intros b2 _].
  apply reverse_total; [lia|apply to_size_t_range].
Qed.

Lemma randfill_loop_fuel fuel rnd : forall i b,
  bit_sz b / 32 + 1 - i <= Z.of_nat fuel ->
  randfill_loop fuel rnd i b <> OutOfFuel.
Proof.
  induction fuel as [|fuel IH]; intros i b Hfuel; simpl;
    destruct (Z.ltb_spec i (bit_sz b / 32 + 1)); try discriminate; [lia|].
  apply bind_fuel.
  - unfold store_int32.
    repeat (apply bind_fuel; [apply buf_write_fuel|intros ? _]).
    apply buf_write_fuel.
  - intros b' Hb'. apply store_int32_bit_sz in Hb'.
    apply IH. rewrite Hb'. lia.
Qed.

Lemma randfill_total rnd b : bitarray_randfill rnd b <> OutOfFuel.
Proof. unfold bitarray_randfill. apply randfill_loop_fuel. lia. Qed.

(** The fill writes [bit_sz/32 + 1] words of four bytes.  On the one
    byte of an 8-bit array that is a write past the buffer; on the four
    bytes of a 31-bit array it is exact. *)
Example randfill_overruns_one_byte rnd :
  bitarray_randfill rnd reverse_scenario = Undefined.
Proof. reflexivity. Qed.

Example randfill_31_bits :
  bitarray_randfill (fun i => 305419896 + i) (mk_bitarray 31 [0; 0; 0; 0])
  = Returns (mk_bitarray 31 [120; 86; 52; 18]).
Proof. reflexivity. Qed.

(** ** The split points of [reverse] *)

Lemma ceil8_bounds n : 0 <= n -> n <= ceil8 n <= n + 7 /\ ceil8 n mod 8 = 0.
Proof.
  intros Hn. unfold ceil8.
  pose proof (Z.div_mod (n + 7) 8 ltac:(lia)).
  pose proof (Z.mod_pos_bound (n + 7) 8 ltac:(lia)).
  split; [lia|]. apply Z.mod_mul. lia.
Qed.

Lemma wholel_of_small left :
  0 <= left <= 120 -> wholel_of left = code_whole_left left.
Proof.
  intros Hl. unfold wholel_of, code_whole_left.
  pose proof (ceil8_bounds left ltac:(lia)) as [Hc _].
  rewrite (to_size_t_small (left + 7)) by (unfold SIZE_MAX; lia).
  fold (ceil8 left).
  rewrite to_size_t_small by (unfold SIZE_MAX; lia).
  apply to_int8_t_small. lia.
Qed.

Lemma wholer_of_small right :
  0 <= right <= 127 -> wholer_of right = spec_whole_right right + 1.
Proof.
  intros Hr. unfold wholer_of, spec_whole_right.
  pose proof (Z.mod_pos_bound right 8 ltac:(lia)).
  pose proof (Z.mod_le right 8 ltac:(lia) ltac:(lia)).
  rewrite to_size_t_small by (unfold SIZE_MAX; lia).
  rewrite to_int8_t_small by lia. lia.
Qed.

(** C8, as amended.  For a range that starts after bit 0, ends in the
    second byte or later and whose split points fit the [int8_t] locals
    of the source, [reverse] is the split at
    [whole_left = ceil(left/8)*8] and
    [whole_right = right - (right % 8) - 1]: the single-byte routine
    runs on [left, whole_left-1] and on [whole_right+1, right], the
    byte-level routine on the bytes [whole_left/8, whole_right/8]. *)
Theorem reverse_split_points (b : bitarray) (left right : Z) :
  wf b -> 0 < left <= 120 -> 8 <= right <= 127 ->
  left <= right < bit_sz b ->
  reverse b left right =
  reverse_split (code_whole_left left) (spec_whole_right right) b left right.
Proof.
  intros Hwf Hl Hr Hlr. unfold reverse, reverse_split.
  rewrite wholel_of_small, wholer_of_small by lia.
  destruct (lookup_lt_is_Some_2 (buf b) _
              (wf_byte_index b left Hwf ltac:(lia))) as [x Hx].
  destruct (lookup_lt_is_Some_2 (buf b) _
              (wf_byte_index b right Hwf ltac:(lia))) as [y Hy].
  rewrite (buf_read_lookup b (left / 8) x) by (try apply Z.div_pos; lia || assumption).
  rewrite (buf_read_lookup b (right / 8) y) by (try apply Z.div_pos; lia || assumption).
  simpl.
  pose proof (ceil8_bounds left ltac:(lia)) as [Hc Hc8].
  unfold code_whole_left, spec_whole_right in *.
  pose proof (Z.mod_pos_bound right 8 ltac:(lia)) as Hm.
  pose proof (Z.div_mod right 8 ltac:(lia)) as Hd.
  assert (Hq : 1 <= right / 8) by (apply Z.div_le_lower_bound; lia).
  rewrite (to_size_t_small (ceil8 left - 1)) by (unfold SIZE_MAX; lia).
  rewrite (to_size_t_small (right - right mod 8 - 1 + 1)) by (unfold SIZE_MAX; lia).
  rewrite !Z.quot_div_nonneg by lia.
  assert (Hcl : 0 <= ceil8 left / 8 <= 16).
  { split; [apply Z.div_pos; lia|]. apply Z.div_le_upper_bound; lia. }
  rewrite (to_size_t_small (ceil8 left / 8)) by (unfold SIZE_MAX; lia).
  assert (Hw : (right - right mod 8 - 1 + 1) / 8 - 1
               = (right - right mod 8 - 1) / 8).
  { replace (right - right mod 8 - 1 + 1) with (right / 8 * 8) by lia.
    replace (right - right mod 8 - 1) with (7 + (right / 8 - 1) * 8) by lia.
    rewrite Z.div_mul, Z.div_add by lia. reflexivity. }
  rewrite Hw.
  rewrite to_size_t_small; [reflexivity|].
  rewrite <- Hw. replace (right - right mod 8 - 1 + 1) with (right / 8 * 8) by lia.
  rewrite Z.div_mul by lia. unfold SIZE_MAX. lia.
Qed.

Lemma reverse_split_points_witness :
  reverse only_bit_9 9 30 =
  reverse_split (code_whole_left 9) (spec_whole_right 30) only_bit_9 9 30.
Proof.
  apply (reverse_split_points only_bit_9 9 30).
  - split; vm_compute; congruence.
  - lia.
  - lia.
  - simpl. lia.
Defined.

(** C8, as stated, fails when [left] is a multiple of 8: the source
    takes [left] itself as its left split point, where the formula
    [ceil((left+1)/8)*8] gives [left + 8], and the two splits of the
    range [8, 30] leave different arrays. *)
Lemma spec_split_points_differ :
  wholel_of 8 = 8 /\ spec_whole_left 8 = 16 /\
  reverse only_bit_9 8 30 = Returns (mk_bitarray 32 [0; 0; 66; 0]) /\
  reverse_split (spec_whole_left 8) (spec_whole_right 30) only_bit_9 8 30
    = Returns (mk_bitarray 32 [0; 66; 0; 0]) /\
  reverse only_bit_9 8 30 <>
  reverse_split (spec_whole_left 8) (spec_whole_right 30) only_bit_9 8 30.
Proof.
  assert (H1 : reverse only_bit_9 8 30
               = Returns (mk_bitarray 32 [0; 0; 66; 0])) by reflexivity.
  assert (H2 : reverse_split (spec_whole_left 8) (spec_whole_right 30)
                 only_bit_9 8 30
               = Returns (mk_bitarray 32 [0; 66; 0; 0])) by reflexivity.
  repeat split; try reflexivity. rewrite H1, H2. discriminate.
Qed.

(** ** Where [reverse] and [bitarray_rotate] leave the specification *)

(** C2 fails on the code.  The specification's scenario asks for
    [0111101001]; the call stops on an assertion.  The left amount is 7,
    so the first reversal is [reverse 0 6]; its left split point is 0,
    [wholel - 1] becomes [SIZE_MAX] as a [size_t], and the first
    iteration of [reverse_short 0 SIZE_MAX] calls
    [bitarray_set] at index [SIZE_MAX]. *)
Theorem rotate_scenario_aborts :
  read_all rotate_scenario = Some (from_digits "1101001011") /\
  spec_rotate (from_digits "1101001011") 0 10 3 = from_digits "0111101001" /\
  modulo (- 3) 10 = Returns 7 /\
  to_size_t (wholel_of 0 - 1) = SIZE_MAX /\
  reverse rotate_scenario 0 6 = Aborted /\
  bitarray_rotate rotate_scenario 0 10 3 = Aborted.
Proof. repeat split; reflexivity. Qed.

(** C1 fails on the code.  Rotating the range [9, 13) of a 16-bit array
    right by one returns, but the bits 13, 14 and 15, outside the range,
    are overwritten and the range does not hold the rotated bits. *)
Theorem rotate_overwrites_outside_range :
  exists b', bitarray_rotate range_1101 9 4 1 = Returns b' /\
    read_all b' = Some (from_digits "0000000001110111") /\
    spec_rotate (from_digits "0000000001101000") 9 4 1
      = from_digits "0000000001110000" /\
    bitarray_get range_1101 13 = Returns false /\
    bitarray_get b' 13 = Returns true.
Proof.
  exists (mk_bitarray 16 [0; 238]).
  repeat split; reflexivity.
Qed.

(** C3 fails on the code.  On the 8-bit array [11010010] the call
    [reverse 2 5] has undefined behaviour: the right split point is 0,
    [wholer / 8 - 1] becomes [SIZE_MAX] as a [size_t], and
    [reverse_byte 1 SIZE_MAX] reads [buf[1]] of a one-byte buffer.  The
    two single-byte phases before it have already left [11001110].  The
    reversal of the positions 2 to 5 is [11001010]. *)
Theorem reverse_scenario_undefined :
  reverse reverse_scenario 2 5 = Undefined /\
  to_size_t (Z.quot (wholer_of 5) 8 - 1) = SIZE_MAX /\
  (b1 ← reverse_short reverse_scenario 2 7; b2 ← reverse_short b1 0 5;
   mret (read_all b2)) = Returns (Some (from_digits "11001110")) /\
  spec_reverse (from_digits "11010010") 2 5 = from_digits "11001010".
Proof. repeat split; reflexivity. Qed.

(** C4 fails on the code.  On a 16-bit array with only bit 10 set,
    [reverse 10 13] twice returns and leaves the bits 10, 11, 14 and 15
    set: [reverse_short] copies bit [i] to its mirror position [j]
    instead of exchanging the two. *)
Theorem reverse_twice_differs :
  exists b1 b2,
    reverse only_bit_10 10 13 = Returns b1 /\
    reverse b1 10 13 = Returns b2 /\
    read_all b1 = Some (from_digits "0000000000110001") /\
    read_all b2 = Some (from_digits "0000000000110011") /\
    b2 <> only_bit_10.
Proof.
  exists (mk_bitarray 16 [0; 140]), (mk_bitarray 16 [0; 204]).
  repeat split; try reflexivity. discriminate.
Qed.

(** [reverse_short] on one byte: the mirror copy. *)
Example reverse_short_copies :
  option_map read_all
    (match reverse_short (of_bits (from_digits "10000000")) 0 7 with
     | Returns b => Some b
     | _ => None
     end)
  = Some (Some (from_digits "10000001")).
Proof. reflexivity. Qed.

(** C5 fails on the code.  With [bit_length = 0] the call aborts:
    [modulo] is called, and asserts a positive divisor, before
    [bit_length] is compared with 0. *)
Theorem rotate_empty_range_aborts :
  bitarray_rotate reverse_scenario 0 0 0 = Aborted /\
  bitarray_rotate reverse_scenario 3 0 5 = Aborted.
Proof. split; reflexivity. Qed.

(** X10: no call with an empty range returns, whatever the array, the
    offset and the amount: [modulo] is called with the divisor 0 before
    [bit_length] is tested. *)
Lemma rotate_empty_range_never_returns b bit_offset bit_right_amount b' :
  bitarray_rotate b bit_offset 0 bit_right_amount <> Returns b'.
Proof.
  unfold bitarray_rotate.
  destruct (assert _); simpl; try discriminate.
  destruct (ssize_neg _); simpl; discriminate.
Qed.

(** X9: on a non-empty range of at most [2^62] bits whose end, as the
    assertion computes it, is inside the array, a rotation by a multiple
    of the length (0 included) returns and changes nothing. *)
Lemma rotate_multiple_noop b bit_offset bit_length q :
  0 < bit_length <= 2 ^ 62 ->
  to_size_t (bit_offset + bit_length) <= bit_sz b ->
  SSIZE_MIN < q * bit_length <= SSIZE_MAX ->
  bitarray_rotate b bit_offset bit_length (q * bit_length) = Returns b.
Proof.
  intros Hlen Hrange Hk. unfold bitarray_rotate.
  rewrite assert_true by (apply Z.leb_le; lia). simpl.
  unfold ssize_neg, in_ssize_t.
  replace (SSIZE_MIN <=? - (q * bit_length)) with true
    by (symmetry; apply Z.leb_le; unfold SSIZE_MIN, SSIZE_MAX in *; lia).
  replace (- (q * bit_length) <=? SSIZE_MAX) with true
    by (symmetry; apply Z.leb_le; unfold SSIZE_MIN, SSIZE_MAX in *; lia).
  simpl. rewrite modulo_returns.
  - replace (- (q * bit_length)) with ((- q) * bit_length) by lia.
    rewrite Z.mod_mul by lia. simpl.
    change (to_int 0) with 0. rewrite orb_true_r. reflexivity.
  - unfold SSIZE_MAX. lia.
  - pose proof (Z.rem_bound_abs (- (q * bit_length)) bit_length ltac:(lia)).
    unfold SSIZE_MAX. lia.
Qed.

(** ** Contract violations *)

Lemma bitarray_get_out_of_range b i :
  bit_sz b <= i -> bitarray_get b i = Aborted.
Proof.
  intros Hi. unfold bitarray_get.
  rewrite assert_false by (apply Z.ltb_ge; lia). reflexivity.
Qed.

Lemma bitarray_set_out_of_range b i v :
  bit_sz b <= i -> bitarray_set b i v = Aborted.
Proof.
  intros Hi. unfold bitarray_set.
  rewrite assert_false by (apply Z.ltb_ge; lia). reflexivity.
Qed.

(** X11: [bitarray_rotate] aborts on a range that ends past the array,
    as long as [bit_offset + bit_length] fits a [size_t]. *)
Lemma bitarray_rotate_out_of_range b off len amount :
  bit_sz b < off + len <= SIZE_MAX ->
  0 <= bit_sz b ->
  bitarray_rotate b off len amount = Aborted.
Proof.
  intros Hr Hb. unfold bitarray_rotate.
  rewrite to_size_t_small by lia.
  rewrite assert_false by (apply Z.leb_gt; lia). reflexivity.
Qed.

(** C9 fails on the code for [bitarray_rotate].  The sum in
    [assert(bit_offset + bit_length <= bitarray->bit_sz)] is a [size_t]
    sum: for [bit_offset = SIZE_MAX] and [bit_length = 1] it wraps to 0,
    the assertion holds, and the call returns on an 8-bit array although
    the range ends far past the array. *)
Theorem rotate_range_check_wraps :
  is_size_t SIZE_MAX /\ is_size_t 1 /\
  bit_sz reverse_scenario < SIZE_MAX + 1 /\
  to_size_t (SIZE_MAX + 1) = 0 /\
  bitarray_rotate reverse_scenario SIZE_MAX 1 0 = Returns reverse_scenario.
Proof. repeat split; try reflexivity; vm_compute; congruence. Qed.

(** * Further properties of the code *)

(** ** Bytes and stored bits *)

Lemma to_char_range z : 0 <= to_char z < 256.
Proof. unfold to_char. apply Z.mod_pos_bound. lia. Qed.

Lemma byte_eq a c :
  0 <= a < 256 -> 0 <= c < 256 ->
  (forall t, 0 <= t < 8 -> Z.testbit a t = Z.testbit c t) -> a = c.
Proof.
  intros Ha Hc H. apply Z.bits_inj'. intros t Ht.
  destruct (Z_lt_dec t 8) as [Hlt|Hge]; [apply H; lia|].
  rewrite <- (Z.mod_small a (2 ^ 8)), <- (Z.mod_small c (2 ^ 8)) by (simpl; lia).
  rewrite !Z.mod_pow2_bits_high by lia. reflexivity.
Qed.

Lemma with_bit_range x k v : 0 <= with_bit x k v < 256.
Proof. apply to_char_range. Qed.

Lemma testbit_with_bit x k v t :
  0 <= k < 8 -> 0 <= t < 8 ->
  Z.testbit (with_bit x k v) t = if t =? k then v else Z.testbit x t.
Proof. apply testbit_set_byte. Qed.

Lemma bitarray_set_with_bit b i v x :
  0 <= i < bit_sz b -> buf b !! Z.to_nat (i / 8) = Some x ->
  bitarray_set b i v =
  Returns (mk_bitarray (bit_sz b)
             (<[Z.to_nat (i / 8) := with_bit x (i mod 8) v]> (buf b))).
Proof. apply bitarray_set_returns. Qed.

Lemma wf_lookup b i :
  wf b -> 0 <= i < bit_sz b -> exists x, buf b !! Z.to_nat (i / 8) = Some x.
Proof.
  intros Hwf Hi. apply lookup_lt_is_Some_2. now apply wf_byte_index.
Qed.

Lemma wf_same_shape b b' :
  wf b -> bit_sz b' = bit_sz b -> length (buf b') = length (buf b) -> wf b'.
Proof. unfold wf. intros [H1 H2] -> ->. split; assumption. Qed.

Lemma get_bit_at b i :
  wf b -> 0 <= i < bit_sz b -> bitarray_get b i = Returns (bit_at b i).
Proof.
  intros Hwf Hi. destruct (wf_lookup b i Hwf Hi) as [x Hx].
  unfold bit_at. rewrite Hx. now apply bitarray_get_returns.
Qed.

Lemma same_byte_index i j :
  0 <= i -> 0 <= j -> i / 8 = j / 8 -> (j mod 8 =? i mod 8) = (j =? i).
Proof.
  intros Hi Hj Hq.
  pose proof (Z.div_mod i 8 ltac:(lia)). pose proof (Z.div_mod j 8 ltac:(lia)).
  destruct (Z.eqb_spec (j mod 8) (i mod 8)), (Z.eqb_spec j i);
    try reflexivity; try lia; subst; contradiction.
Qed.

Lemma div8_to_nat_inj i j :
  0 <= i -> 0 <= j -> Z.to_nat (i / 8) = Z.to_nat (j / 8) -> i / 8 = j / 8.
Proof.
  intros Hi Hj H.
  assert (0 <= i / 8) by (apply Z.div_pos; lia).
  assert (0 <= j / 8) by (apply Z.div_pos; lia). lia.
Qed.

(** What [bitarray_set] does to the stored bits. *)
Lemma set_bit_at b i v :
  wf b -> 0 <= i < bit_sz b ->
  exists b', bitarray_set b i v = Returns b' /\
    bit_sz b' = bit_sz b /\ length (buf b') = length (buf b) /\
    forall j, 0 <= j -> bit_at b' j = if j =? i then v else bit_at b j.
Proof.
  intros Hwf Hi. destruct (wf_lookup b i Hwf Hi) as [x Hx].
  pose proof (wf_byte_index b i Hwf Hi) as Hlt.
  pose proof (Z.mod_pos_bound i 8 ltac:(lia)) as Hk.
  eexists. split; [apply (bitarray_set_with_bit b i v x Hi Hx)|].
  simpl. split; [reflexivity|]. split; [apply length_insert|].
  intros j Hj. unfold bit_at. simpl.
  pose proof (Z.mod_pos_bound j 8 ltac:(lia)) as Hkj.
  destruct (decide (Z.to_nat (i / 8) = Z.to_nat (j / 8))) as [Heq|Hne].
  - rewrite <- Heq, list_lookup_insert_eq, Hx by exact Hlt.
    rewrite testbit_with_bit by lia.
    rewrite same_byte_index; [reflexivity|lia|lia|].
    now apply div8_to_nat_inj.
  - rewrite list_lookup_insert_ne by exact Hne.
    destruct (Z.eqb_spec j i) as [->|_]; [contradiction|reflexivity].
Qed.

(** ** Writes to one bit *)

(** X4: a second [set] at the same index overrides the first. *)
Theorem set_set_same (b : bitarray) (i : Z) (v w : bool) :
  wf b -> 0 <= i < bit_sz b ->
  (b1 ← bitarray_set b i v; bitarray_set b1 i w) = bitarray_set b i w.
Proof.
  intros Hwf Hi. destruct (wf_lookup b i Hwf Hi) as [x Hx].
  pose proof (wf_byte_index b i Hwf Hi) as Hlt.
  pose proof (Z.mod_pos_bound i 8 ltac:(lia)) as Hk.
  rewrite (bitarray_set_with_bit b i v x Hi Hx),
          (bitarray_set_with_bit b i w x Hi Hx). simpl.
  erewrite bitarray_set_with_bit; simpl; [|lia|].
  2: { apply list_lookup_insert_eq. exact Hlt. }
  rewrite list_insert_insert_eq. do 3 f_equal.
  apply byte_eq; try apply with_bit_range.
  intros t Ht. rewrite !testbit_with_bit by lia.
  destruct (t =? i mod 8); reflexivity.
Qed.

Lemma set_set_same_witness :
  (b1 ← bitarray_set rotate_scenario 3 false; bitarray_set b1 3 true)
  = bitarray_set rotate_scenario 3 true.
Proof.
  apply (set_set_same rotate_scenario 3 false true).
  - split; vm_compute; congruence.
  - vm_compute. split; congruence.
Defined.

(** X5: two [set] calls at different indices can be exchanged. *)
Theorem set_set_commute (b : bitarray) (i j : Z) (v w : bool) :
  wf b -> 0 <= i < bit_sz b -> 0 <= j < bit_sz b -> i <> j ->
  (b1 ← bitarray_set b i v; bitarray_set b1 j w)
  = (b1 ← bitarray_set b j w; bitarray_set b1 i v).
Proof.
  intros Hwf Hi Hj Hne.
  destruct (wf_lookup b i Hwf Hi) as [x Hx].
  destruct (wf_lookup b j Hwf Hj) as [y Hy].
  pose proof (wf_byte_index b i Hwf Hi) as Hlti.
  pose proof (wf_byte_index b j Hwf Hj) as Hltj.
  pose proof (Z.mod_pos_bound i 8 ltac:(lia)) as Hki.
  pose proof (Z.mod_pos_bound j 8 ltac:(lia)) as Hkj.
  rewrite (bitarray_set_with_bit b i v x Hi Hx),
          (bitarray_set_with_bit b j w y Hj Hy). simpl.
  destruct (decide (Z.to_nat (i / 8) = Z.to_nat (j / 8))) as [Heq|Hdiff].
  - assert (y = x) by (rewrite Heq in Hx; congruence). subst y.
    pose proof (div8_to_nat_inj i j ltac:(lia) ltac:(lia) Heq) as Hq.
    assert (Hm : i mod 8 <> j mod 8).
    { intros Hm. pose proof (Z.div_mod i 8 ltac:(lia)).
      pose proof (Z.div_mod j 8 ltac:(lia)). lia. }
    erewrite (bitarray_set_with_bit _ j); simpl; [|lia|].
    2: { rewrite <- Heq. apply list_lookup_insert_eq. exact Hlti. }
    erewrite (bitarray_set_with_bit _ i); simpl; [|lia|].
    2: { rewrite Heq. apply list_lookup_insert_eq. exact Hltj. }
    rewrite <- Heq, !list_insert_insert_eq. do 3 f_equal.
    apply byte_eq; try apply with_bit_range.
    intros t Ht. rewrite !testbit_with_bit by lia.
    destruct (Z.eqb_spec t (j mod 8)), (Z.eqb_spec t (i mod 8));
      try reflexivity. lia.
  - erewrite (bitarray_set_with_bit _ j); simpl; [|lia|].
    2: { rewrite list_lookup_insert_ne by exact Hdiff. exact Hy. }
    erewrite (bitarray_set_with_bit _ i); simpl; [|lia|].
    2: { rewrite list_lookup_insert_ne by (intros E; apply Hdiff; now symmetry).
         exact Hx. }
    rewrite list_insert_insert_ne by (intros E; apply Hdiff; now symmetry).
    reflexivity.
Qed.

Lemma set_set_commute_witness :
  (b1 ← bitarray_set rotate_scenario 3 false; bitarray_set b1 9 false)
  = (b1 ← bitarray_set rotate_scenario 9 false; bitarray_set b1 3 false).
Proof.
  apply (set_set_commute rotate_scenario 3 9 false false).
  - split; vm_compute; congruence.
  - vm_compute. split; congruence.
  - vm_compute. split; congruence.
  - discriminate.
Defined.

(** X6: writing back the value [get] returns leaves the array as it is,
    when the buffer holds [char] bit patterns. *)
Theorem set_current_value (b : bitarray) (i : Z) (v : bool) :
  wf b -> bytes_ok b -> bitarray_get b i = Returns v ->
  0 <= i -> bitarray_set b i v = Returns b.
Proof.
  intros Hwf Hok Hget Hi0.
  assert (Hi : 0 <= i < bit_sz b).
  { split; [lia|]. destruct (Z.ltb_spec i (bit_sz b)) as [|Hge]; [lia|].
    rewrite bitarray_get_out_of_range in Hget by lia. discriminate. }
  destruct (wf_lookup b i Hwf Hi) as [x Hx].
  pose proof (Z.mod_pos_bound i 8 ltac:(lia)) as Hk.
  rewrite (bitarray_get_returns b i x Hi Hx) in Hget. injection Hget as <-.
  rewrite (bitarray_set_with_bit b i _ x Hi Hx).
  assert (Hb : with_bit x (i mod 8) (Z.testbit x (i mod 8)) = x).
  { apply byte_eq; [apply with_bit_range| |].
    - unfold bytes_ok in Hok. rewrite Forall_lookup in Hok. exact (Hok _ _ Hx).
    - intros t Ht. rewrite testbit_with_bit by lia.
      destruct (Z.eqb_spec t (i mod 8)) as [->|]; reflexivity. }
  rewrite Hb, list_insert_id by exact Hx. destruct b; reflexivity.
Qed.

Lemma set_current_value_witness :
  bitarray_set rotate_scenario 3 true = Returns rotate_scenario.
Proof.
  apply (set_current_value rotate_scenario 3 true).
  - split; vm_compute; congruence.
  - unfold bytes_ok. vm_compute. repeat constructor; congruence.
  - reflexivity.
  - lia.
Defined.

(** ** What every operation keeps *)

(** A relation between the array before and after a call that is
    reflexive, transitive and holds across a buffer write holds across
    every operation that returns. *)
Section Preserved.
Variable R : bitarray -> bitarray -> Prop.
Hypothesis R_refl : forall b, R b b.
Hypothesis R_trans : forall b1 b2 b3, R b1 b2 -> R b2 b3 -> R b1 b3.
Hypothesis R_write : forall b k x b',
  buf_write b k x = Returns b' -> R b b'.

Lemma bitarray_set_pres b i v b' :
  bitarray_set b i v = Returns b' -> R b b'.
Proof.
  unfold bitarray_set. intros H. bind_inv H. bind_inv H. eauto.
Qed.

Lemma reverse_short_loop_pres fuel byte : forall i j b b',
  reverse_short_loop fuel byte i j b = Returns b' -> R b b'.
Proof.
  induction fuel as [|fuel IH]; intros i j b b'; simpl;
    destruct (i <? j); try discriminate; try (intros [= <-]; apply R_refl).
  intros H. bind_inv H. bind_inv H.
  apply IH in H. apply bitarray_set_pres in H0, H1. eauto.
Qed.

Lemma reverse_short_pres b left right b' :
  reverse_short b left right = Returns b' -> R b b'.
Proof.
  unfold reverse_short. intros H. bind_inv H.
  now apply reverse_short_loop_pres in H.
Qed.

Lemma reverse_byte_loop_pres fuel : forall i j b b',
  reverse_byte_loop fuel i j b = Returns b' -> R b b'.
Proof.
  induction fuel as [|fuel IH]; intros i j b b'; simpl;
    destruct (i <? j); try discriminate; try (intros [= <-]; apply R_refl).
  intros H. do 6 bind_inv H.
  apply IH in H. apply R_write in H2, H3.
  apply reverse_short_pres in H4, H5. eauto.
Qed.

Lemma reverse_pres b left right b' :
  reverse b left right = Returns b' -> R b b'.
Proof.
  unfold reverse, reverse_byte. intros H. do 4 bind_inv H.
  apply reverse_byte_loop_pres in H.
  apply reverse_short_pres in H2, H3. eauto.
Qed.

Lemma bitarray_rotate_pres b off len amount b' :
  bitarray_rotate b off len amount = Returns b' -> R b b'.
Proof.
  unfold bitarray_rotate. intros H. do 3 bind_inv H.
  destruct (_ || _); [injection H as <-; apply R_refl|].
  unfold bitarray_rotate_left in H.
  destruct (_ =? 0); [injection H as <-; apply R_refl|].
  do 2 bind_inv H. apply reverse_pres in H, H3, H4. eauto.
Qed.

Lemma rotate_left_one_loop_pres fuel bound : forall i b i' b',
  rotate_left_one_loop fuel bound i b = Returns (i', b') -> R b b'.
Proof.
  induction fuel as [|fuel IH]; intros i b i' b'; simpl;
    destruct (_ <? bound); try discriminate;
    try (intros [= <- <-]; apply R_refl).
  intros H. do 2 bind_inv H.
  apply IH in H. apply bitarray_set_pres in H1. eauto.
Qed.

Lemma bitarray_rotate_left_one_pres b off len b' :
  bitarray_rotate_left_one b off len = Returns b' -> R b b'.
Proof.
  unfold bitarray_rotate_left_one. intros H. do 2 bind_inv H.
  destruct b1 as [i b1]. simpl in H.
  apply rotate_left_one_loop_pres in H1.
  apply bitarray_set_pres in H. eauto.
Qed.

Lemma randfill_pres rnd b b' :
  bitarray_randfill rnd b = Returns b' -> R b b'.
Proof.
  unfold bitarray_randfill. generalize (Z.to_nat (bit_sz b / 32 + 1)), 0.
  intros fuel. revert b. induction fuel as [|fuel IH]; intros b i; simpl;
    destruct (i <? _); try discriminate; try (intros [= <-]; apply R_refl).
  intros H. bind_inv H. apply IH in H.
  unfold store_int32 in H0. do 3 bind_inv H0.
  apply R_write in H0, H1, H2, H3. eauto.
Qed.

Lemma run_ops_pres os : forall b b',
  run_ops os b = Returns b' -> R b b'.
Proof.
  induction os as [|o os IH]; simpl; intros b b' H.
  - injection H as <-. apply R_refl.
  - bind_inv H. apply IH in H. apply R_trans with b0; [|exact H].
    destruct o; simpl in H0.
    + bind_inv H0. injection H0 as <-. apply R_refl.
    + now apply bitarray_set_pres in H0.
    + now apply bitarray_rotate_pres in H0.
    + now apply randfill_pres in H0.
Qed.
End Preserved.

(** The shape of an array: its size, the length of its buffer, and
    that the buffer holds [char] bit patterns. *)
Lemma buf_write_shape b k x b' :
  buf_write b k x = Returns b' ->
  bit_sz b' = bit_sz b /\ length (buf b') = length (buf b) /\
  (bytes_ok b -> bytes_ok b').
Proof.
  unfold buf_write. destruct (k <? _); [|discriminate].
  intros [= <-]. simpl. split; [reflexivity|]. split; [apply length_insert|].
  unfold bytes_ok. simpl. intros Hok.
  apply Forall_insert; [exact Hok|apply to_char_range].
Qed.

Lemma shape_kept os b b' :
  run_ops os b = Returns b' ->
  bit_sz b' = bit_sz b /\ length (buf b') = length (buf b) /\
  (bytes_ok b -> bytes_ok b').
Proof.
  apply (run_ops_pres
           (fun b b' => bit_sz b' = bit_sz b /\
                        length (buf b') = length (buf b) /\
                        (bytes_ok b -> bytes_ok b'))).
  - intros; tauto.
  - intros b1 b2 b3 (?&?&?) (?&?&?). repeat split; try congruence. tauto.
  - apply buf_write_shape.
Qed.

(** X7: the invariant of the data model is kept.  After any sequence of
    [get], [set], [rotate] and [randfill] calls that return, the buffer
    still has [ceil(bit_sz/8)] bytes, each a [char] bit pattern. *)
Theorem invariant_kept (os : list op) (b b' : bitarray) :
  wf b -> bytes_ok b -> run_ops os b = Returns b' -> wf b' /\ bytes_ok b'.
Proof.
  intros Hwf Hok Hrun. destruct (shape_kept os b b' Hrun) as (Hs & Hl & Hb).
  split; [now apply (wf_same_shape b)|now apply Hb].
Qed.

Lemma invariant_kept_witness :
  wf (mk_bitarray 31 [120; 86; 52; 18]) /\
  bytes_ok (mk_bitarray 31 [120; 86; 52; 18]).
Proof.
  apply (invariant_kept sample_run (mk_bitarray 31 [0; 0; 0; 0])).
  - split; vm_compute; congruence.
  - unfold bytes_ok. simpl. repeat constructor; lia.
  - reflexivity.
Defined.

(** ** Construction *)

Lemma lookup_repeat {A} (x y : A) n i : repeat x n !! i = Some y -> y = x.
Proof.
  revert i. induction n as [|n IH]; intros [|i]; simpl; try discriminate.
  - congruence.
  - apply IH.
Qed.

(** X1: a fresh array.  For [n <= SIZE_MAX - 7], [bitarray_new n]
    returns, when both allocations succeed, an array of size [n] that
    satisfies the invariant and whose [n] bits all read [false]; when an
    allocation fails it returns [NULL]. *)
Theorem new_is_zeroed (n : Z) :
  0 <= n <= SIZE_MAX - 7 ->
  bitarray_new false true n = None /\
  bitarray_new true false n = None /\
  exists h, bitarray_new true true n = Some h /\
    bitarray_get_bit_sz h = n /\ wf h /\ bytes_ok h /\
    forall i, 0 <= i < n -> bitarray_get h i = Returns false.
Proof.
  intros Hn. split; [reflexivity|]. split; [reflexivity|].
  set (h := mk_bitarray n (repeat 0 (Z.to_nat (to_size_t (n + 7) / 8)))).
  exists h. split; [reflexivity|]. split; [reflexivity|].
  assert (Hwf : wf h).
  { split; simpl; [lia|]. rewrite repeat_length.
    rewrite to_size_t_small by lia.
    assert (0 <= (n + 7) / 8) by (apply Z.div_pos; lia). lia. }
  split; [exact Hwf|]. split.
  - unfold bytes_ok. simpl. apply Forall_forall. intros x Hx.
    apply list_elem_of_In, repeat_spec in Hx. lia.
  - intros i Hi. destruct (wf_lookup h i Hwf Hi) as [x Hx].
    rewrite (bitarray_get_returns h i x Hi Hx).
    simpl in Hx. apply lookup_repeat in Hx. subst x.
    rewrite Z.bits_0. reflexivity.
Qed.

Lemma new_is_zeroed_witness :
  bitarray_new false true 10 = None /\
  bitarray_new true false 10 = None /\
  exists h, bitarray_new true true 10 = Some h /\
    bitarray_get_bit_sz h = 10 /\ wf h /\ bytes_ok h /\
    forall i, 0 <= i < 10 -> bitarray_get h i = Returns false.
Proof. apply (new_is_zeroed 10). vm_compute. split; congruence. Defined.

(** X2: for the seven sizes above [SIZE_MAX - 7] the byte count
    [(bit_sz+7)/8] wraps to 0: the array reports its size, has an empty
    buffer, and every [get] and [set] inside the reported size is a
    read outside the buffer. *)
Theorem new_size_wraps (n i : Z) (v : bool) (h : bitarray) :
  SIZE_MAX - 7 < n <= SIZE_MAX -> 0 <= i < n ->
  bitarray_new true true n = Some h ->
  bitarray_get_bit_sz h = n /\ buf h = [] /\
  bitarray_get h i = Undefined /\ bitarray_set h i v = Undefined.
Proof.
  intros Hn Hi [= <-]. unfold bitarray_get_bit_sz. simpl.
  assert (Hb : to_size_t (n + 7) / 8 = 0).
  { unfold to_size_t, SIZE_MAX in *.
    replace (n + 7) with (n + 7 - 2 ^ 64 + 1 * 2 ^ 64) by lia.
    rewrite Z.mod_add by lia. rewrite Z.mod_small by lia.
    apply Z.div_small. lia. }
  rewrite Hb. simpl. split; [reflexivity|]. split; [reflexivity|].
  assert (0 <= i / 8) by (apply Z.div_pos; lia).
  unfold bitarray_get, bitarray_set. simpl.
  rewrite assert_true by (apply Z.ltb_lt; lia). simpl.
  unfold buf_read. simpl.
  split; destruct (i / 8 <? _); reflexivity.
Qed.

Lemma new_size_wraps_witness :
  bitarray_get_bit_sz (mk_bitarray SIZE_MAX []) = SIZE_MAX /\
  buf (mk_bitarray SIZE_MAX []) = [] /\
  bitarray_get (mk_bitarray SIZE_MAX []) 0 = Undefined /\
  bitarray_set (mk_bitarray SIZE_MAX []) 0 true = Undefined.
Proof.
  apply (new_size_wraps SIZE_MAX 0 true (mk_bitarray SIZE_MAX [])).
  - vm_compute. split; congruence.
  - vm_compute. split; congruence.
  - reflexivity.
Defined.

(** ** The one-bit rotation *)

Lemma ret_bind {A B} (x : A) (f : A -> result B) : Returns x ≫= f = f x.
Proof. reflexivity. Qed.

Lemma rotate_left_one_loop_spec bound fuel : forall i b,
  wf b -> 0 <= i < bound -> bound <= bit_sz b -> bit_sz b <= SIZE_MAX ->
  bound - i <= Z.of_nat fuel ->
  exists b', rotate_left_one_loop fuel bound i b = Returns (bound - 1, b') /\
    wf b' /\ bit_sz b' = bit_sz b /\
    forall k, 0 <= k -> bit_at b' k =
      if (i <=? k) && (k <? bound - 1) then bit_at b (k + 1) else bit_at b k.
Proof.
  induction fuel as [|fuel IH]; intros i b Hwf Hi Hb Hmax Hfuel; [lia|].
  simpl. rewrite to_size_t_small by lia.
  destruct (Z.ltb_spec (i + 1) bound) as [Hlt|Hge].
  - rewrite get_bit_at by (auto; lia). simpl.
    destruct (set_bit_at b i (bit_at b (i + 1)) Hwf ltac:(lia))
      as (b1 & Hset & Hsz & Hlen & Hbits).
    rewrite Hset. simpl.
    assert (Hwf1 : wf b1) by (now apply (wf_same_shape b)).
    destruct (IH (i + 1) b1 Hwf1 ltac:(lia) ltac:(lia) ltac:(lia) ltac:(lia))
      as (b' & Hloop & Hwf' & Hsz' & Hbits').
    exists b'. split; [exact Hloop|]. split; [exact Hwf'|].
    split; [congruence|].
    intros k Hk. rewrite Hbits' by lia. rewrite !Hbits by lia.
    destruct (Z.leb_spec (i + 1) k), (Z.ltb_spec k (bound - 1)),
      (Z.leb_spec i k), (Z.eqb_spec (k + 1) i), (Z.eqb_spec k i);
      simpl; try lia; try reflexivity; subst; reflexivity.
  - assert (i = bound - 1) by lia. subst i.
    exists b. split; [reflexivity|]. split; [exact Hwf|].
    split; [reflexivity|]. intros k Hk.
    destruct (Z.leb_spec (bound - 1) k), (Z.ltb_spec k (bound - 1));
      simpl; try lia; reflexivity.
Qed.

(** X17: [bitarray_rotate_left_one] rotates the range
    [bit_offset, bit_offset + bit_length) left by one position.  On a
    non-empty range inside the array the call returns; afterwards every
    index of the range but the last reads what the next index read
    before, the last index reads what the first read, and all other
    bits are unchanged. *)
Theorem rotate_left_one_correct (b : bitarray) (bit_offset bit_length : Z) :
  wf b -> 0 <= bit_offset -> 0 < bit_length ->
  bit_offset + bit_length <= bit_sz b -> bit_sz b <= SIZE_MAX ->
  exists b', bitarray_rotate_left_one b bit_offset bit_length = Returns b' /\
    wf b' /\ bitarray_get_bit_sz b' = bitarray_get_bit_sz b /\
    forall k, 0 <= k < bit_sz b ->
      bitarray_get b' k =
      bitarray_get b
        (if (bit_offset <=? k) && (k <? bit_offset + bit_length) then
           if k =? bit_offset + bit_length - 1 then bit_offset else k + 1
         else k).
Proof.
  intros Hwf Ho Hl Hr Hmax. unfold bitarray_rotate_left_one.
  rewrite get_bit_at, ret_bind by (auto; lia).
  rewrite (to_size_t_small (bit_offset + bit_length)) by lia. cbv zeta.
  destruct (rotate_left_one_loop_spec (bit_offset + bit_length)
              (S (Z.to_nat (bit_offset + bit_length))) bit_offset b
              Hwf ltac:(lia) Hr Hmax ltac:(lia))
    as (b1 & Hloop & Hwf1 & Hsz1 & Hbits1).
  rewrite Hloop, ret_bind. simpl.
  destruct (set_bit_at b1 (bit_offset + bit_length - 1) (bit_at b bit_offset)
              Hwf1 ltac:(lia)) as (b' & Hset & Hsz & Hlen & Hbits).
  exists b'. split; [exact Hset|].
  assert (Hwf' : wf b') by (now apply (wf_same_shape b1)).
  split; [exact Hwf'|]. unfold bitarray_get_bit_sz.
  split; [congruence|]. intros k Hk.
  rewrite (get_bit_at b') by (auto; lia).
  rewrite Hbits, Hbits1 by lia.
  destruct (Z.leb_spec bit_offset k), (Z.ltb_spec k (bit_offset + bit_length)),
    (Z.ltb_spec k (bit_offset + bit_length - 1)),
    (Z.eqb_spec k (bit_offset + bit_length - 1));
    simpl; try lia; rewrite get_bit_at by (auto; lia); reflexivity.
Qed.

Lemma rotate_left_one_correct_witness :
  exists b', bitarray_rotate_left_one rotate_scenario 2 5 = Returns b' /\
    wf b' /\ bitarray_get_bit_sz b' = bitarray_get_bit_sz rotate_scenario /\
    forall k, 0 <= k < bit_sz rotate_scenario ->
      bitarray_get b' k =
      bitarray_get rotate_scenario
        (if (2 <=? k) && (k <? 2 + 5) then
           if k =? 2 + 5 - 1 then 2 else k + 1
         else k).
Proof.
  apply (rotate_left_one_correct rotate_scenario 2 5);
    try lia; try (vm_compute; congruence).
  split; vm_compute; congruence.
Defined.

(** The one-bit rotation on the scenario array, range [2, 7):
    [11 01001 011] becomes [11 10010 011]. *)
Example rotate_left_one_scenario :
  option_map read_all
    (match bitarray_rotate_left_one rotate_scenario 2 5 with
     | Returns b => Some b
     | _ => None
     end)
  = Some (Some (from_digits "1110010011")).
Proof. reflexivity. Qed.

(** ** What [reverse_short] does *)

Lemma truth_bitmask byte i :
  truth (Z.land byte (bitmask i)) = Z.testbit byte (i mod 8).
Proof.
  rewrite bitmask_pow2. apply truth_land_pow2.
  apply Z.mod_pos_bound. lia.
Qed.

Lemma reverse_short_loop_spec byte fuel : forall i j b,
  wf b -> 0 <= i -> j < bit_sz b -> bit_sz b <= SIZE_MAX ->
  j - i <= Z.of_nat fuel ->
  exists b', reverse_short_loop fuel byte i j b = Returns b' /\
    wf b' /\ bit_sz b' = bit_sz b /\
    forall k, 0 <= k -> bit_at b' k =
      if (i <=? k) && (k <=? j) && negb (2 * k =? i + j)
      then Z.testbit byte (Z.min k (i + j - k) mod 8)
      else bit_at b k.
Proof.
  induction fuel as [|fuel IH]; intros i j b Hwf Hi Hj Hmax Hfuel; simpl;
    destruct (Z.ltb_spec i j) as [Hlt|Hge]; try lia.
  - exists b. split; [reflexivity|]. split; [exact Hwf|].
    split; [reflexivity|]. intros k Hk.
    destruct (Z.leb_spec i k), (Z.leb_spec k j), (Z.eqb_spec (2 * k) (i + j));
      simpl; try lia; reflexivity.
  - rewrite truth_bitmask.
    destruct (set_bit_at b i (Z.testbit byte (i mod 8)) Hwf ltac:(lia))
      as (b1 & Hset1 & Hsz1 & Hlen1 & Hbits1).
    rewrite Hset1, ret_bind.
    assert (Hwf1 : wf b1) by (now apply (wf_same_shape b)).
    destruct (set_bit_at b1 j (Z.testbit byte (i mod 8)) Hwf1 ltac:(lia))
      as (b2 & Hset2 & Hsz2 & Hlen2 & Hbits2).
    rewrite Hset2, ret_bind.
    assert (Hwf2 : wf b2) by (now apply (wf_same_shape b1)).
    rewrite !to_size_t_small by lia.
    destruct (IH (i + 1) (j - 1) b2 Hwf2 ltac:(lia) ltac:(lia) ltac:(lia)
                ltac:(lia)) as (b' & Hloop & Hwf' & Hsz' & Hbits').
    exists b'. split; [exact Hloop|]. split; [exact Hwf'|].
    split; [congruence|]. intros k Hk.
    rewrite Hbits', Hbits2, Hbits1 by lia.
    replace (i + 1 + (j - 1)) with (i + j) by lia.
    destruct (Z.leb_spec (i + 1) k), (Z.leb_spec k (j - 1)),
      (Z.leb_spec i k), (Z.leb_spec k j), (Z.eqb_spec (2 * k) (i + j)),
      (Z.eqb_spec k j), (Z.eqb_spec k i);
      simpl; try lia; try reflexivity; subst.
    + replace (Z.min j (i + j - j)) with i by lia. reflexivity.
    + replace (Z.min i (i + j - i)) with i by lia. reflexivity.
  - exists b. split; [reflexivity|]. split; [exact Hwf|].
    split; [reflexivity|]. intros k Hk.
    destruct (Z.leb_spec i k), (Z.leb_spec k j), (Z.eqb_spec (2 * k) (i + j));
      simpl; try lia; reflexivity.
Qed.

(** X16: [reverse_short] mirrors, it does not reverse.  On a range that
    lies in one byte the call returns; afterwards every index [k] in the
    upper half of the range reads what its mirror index
    [left + right - k] read before, and every other bit, the lower half
    of the range included, is unchanged. *)
Theorem reverse_short_mirrors (b : bitarray) (left right : Z) :
  wf b -> bit_sz b <= SIZE_MAX ->
  0 <= left <= right -> right < bit_sz b -> left / 8 = right / 8 ->
  exists b', reverse_short b left right = Returns b' /\
    wf b' /\ bitarray_get_bit_sz b' = bitarray_get_bit_sz b /\
    forall k, 0 <= k < bit_sz b ->
      bitarray_get b' k =
      bitarray_get b
        (if (left + right - k <? k) && (k <=? right)
         then left + right - k else k).
Proof.
  intros Hwf Hmax Hl Hr Hbyte. unfold reverse_short.
  rewrite Z.shiftr_div_pow2 by lia. change (2 ^ 3) with 8.
  destruct (wf_lookup b left Hwf ltac:(lia)) as [x Hx].
  rewrite (buf_read_lookup b (left / 8) x), ret_bind
    by (try apply Z.div_pos; lia || assumption).
  destruct (reverse_short_loop_spec x (Z.to_nat (right - left)) left right b
              Hwf ltac:(lia) Hr Hmax ltac:(lia))
    as (b' & Hloop & Hwf' & Hsz' & Hbits').
  exists b'. split; [exact Hloop|]. split; [exact Hwf'|].
  unfold bitarray_get_bit_sz. split; [exact Hsz'|].
  intros k Hk. rewrite (get_bit_at b') by (auto; lia).
  rewrite Hbits' by lia.
  assert (Hin : forall t, left <= t <= right ->
                          bit_at b t = Z.testbit x (t mod 8)).
  { intros t Ht. unfold bit_at.
    assert (t / 8 = left / 8) as ->; [|now rewrite Hx].
    pose proof (Z.div_le_mono left t 8 ltac:(lia) ltac:(lia)).
    pose proof (Z.div_le_mono t right 8 ltac:(lia) ltac:(lia)). lia. }
  destruct (Z.leb_spec left k), (Z.leb_spec k right),
    (Z.eqb_spec (2 * k) (left + right)), (Z.ltb_spec (left + right - k) k);
    simpl; try lia; rewrite get_bit_at by (auto; lia); f_equal;
    try reflexivity.
  - rewrite Hin by lia. f_equal. f_equal. lia.
  - rewrite Hin by lia. f_equal. f_equal. lia.
Qed.

Lemma reverse_short_mirrors_witness :
  exists b', reverse_short rotate_scenario 1 6 = Returns b' /\
    wf b' /\ bitarray_get_bit_sz b' = bitarray_get_bit_sz rotate_scenario /\
    forall k, 0 <= k < bit_sz rotate_scenario ->
      bitarray_get b' k =
      bitarray_get rotate_scenario
        (if (1 + 6 - k <? k) && (k <=? 6) then 1 + 6 - k else k).
Proof.
  apply (reverse_short_mirrors rotate_scenario 1 6);
    try lia; try (vm_compute; congruence); try reflexivity.
  split; vm_compute; congruence.
Defined.

(** ** The random fill *)

Lemma buf_write_in b k x :
  k < Z.of_nat (length (buf b)) ->
  buf_write b k x =
  Returns (mk_bitarray (bit_sz b) (<[Z.to_nat k := to_char x]> (buf b))).
Proof.
  intros H. unfold buf_write.
  replace (k <? _) with true by (symmetry; apply Z.ltb_lt; lia). reflexivity.
Qed.

Lemma buf_write_out b k x :
  Z.of_nat (length (buf b)) <= k -> buf_write b k x = Undefined.
Proof.
  intros H. unfold buf_write.
  replace (k <? _) with false by (symmetry; apply Z.ltb_ge; lia). reflexivity.
Qed.

Lemma store_int32_spec b i v :
  0 <= i -> 4 * i + 3 < Z.of_nat (length (buf b)) ->
  exists b', store_int32 b i v = Returns b' /\
    bit_sz b' = bit_sz b /\ length (buf b') = length (buf b) /\
    forall k, 0 <= k -> buf b' !! Z.to_nat k =
      if (4 * i <=? k) && (k <? 4 * i + 4)
      then Some (to_char (Z.shiftr v (8 * (k - 4 * i))))
      else buf b !! Z.to_nat k.
Proof.
  intros Hi Hlen. unfold store_int32.
  rewrite buf_write_in, ret_bind by lia.
  rewrite buf_write_in, ret_bind by (cbn [buf]; rewrite length_insert; lia).
  rewrite buf_write_in, ret_bind by (cbn [buf]; rewrite !length_insert; lia).
  rewrite buf_write_in by (cbn [buf]; rewrite !length_insert; lia).
  eexists. split; [reflexivity|]. cbn [bit_sz buf].
  split; [reflexivity|]. split; [now rewrite !length_insert|].
  intros k Hk. rewrite !list_lookup_insert, !length_insert.
  destruct (Z.leb_spec (4 * i) k), (Z.ltb_spec k (4 * i + 4)); simpl.
  - assert (Hc : k = 4 * i \/ k = 4 * i + 1 \/ k = 4 * i + 2 \/ k = 4 * i + 3)
      by lia.
    destruct Hc as [-> | [-> | [-> | ->]]]; repeat case_decide; try lia.
    + replace (8 * (4 * i - 4 * i)) with 0 by lia.
      rewrite Z.shiftr_0_r. reflexivity.
    + replace (8 * (4 * i + 1 - 4 * i)) with 8 by lia. reflexivity.
    + replace (8 * (4 * i + 2 - 4 * i)) with 16 by lia. reflexivity.
    + replace (8 * (4 * i + 3 - 4 * i)) with 24 by lia. reflexivity.
  - repeat case_decide; try lia; reflexivity.
  - repeat case_decide; try lia; reflexivity.
  - repeat case_decide; try lia; reflexivity.
Qed.

Lemma store_int32_overrun b i v :
  0 <= i -> Z.of_nat (length (buf b)) <= 4 * i + 3 ->
  store_int32 b i v = Undefined.
Proof.
  intros Hi Hlen. unfold store_int32.
  destruct (Z_lt_dec (4 * i) (Z.of_nat (length (buf b))));
    [rewrite buf_write_in, ret_bind by lia
    |rewrite buf_write_out by lia; reflexivity].
  destruct (Z_lt_dec (4 * i + 1) (Z.of_nat (length (buf b))));
    [rewrite buf_write_in, ret_bind by (cbn [buf]; rewrite length_insert; lia)
    |rewrite buf_write_out by (cbn [buf]; rewrite length_insert; lia);
     reflexivity].
  destruct (Z_lt_dec (4 * i + 2) (Z.of_nat (length (buf b))));
    [rewrite buf_write_in, ret_bind by (cbn [buf]; rewrite !length_insert; lia)
    |rewrite buf_write_out by (cbn [buf]; rewrite !length_insert; lia);
     reflexivity].
  apply buf_write_out. cbn [buf]. rewrite !length_insert. lia.
Qed.

Lemma randfill_loop_overrun rnd fuel : forall i b,
  0 <= i <= bit_sz b / 32 ->
  Z.of_nat (length (buf b)) < 4 * (bit_sz b / 32 + 1) ->
  bit_sz b / 32 + 1 - i <= Z.of_nat fuel ->
  randfill_loop fuel rnd i b = Undefined.
Proof.
  induction fuel as [|fuel IH]; intros i b Hi Hlen Hfuel; [lia|].
  simpl. destruct (Z.ltb_spec i (bit_sz b / 32 + 1)); [|lia].
  destruct (Z_lt_dec (4 * i + 3) (Z.of_nat (length (buf b)))) as [Hin|Hout].
  - destruct (store_int32_spec b i (rnd i) ltac:(lia) Hin)
      as (b' & Hst & Hsz & Hl & _).
    rewrite Hst, ret_bind. apply IH; rewrite ?Hsz, ?Hl; lia.
  - rewrite store_int32_overrun by lia. reflexivity.
Qed.

(** X20: the fill overruns the buffer.  [bitarray_randfill] stores
    [bit_sz/32 + 1] words of four bytes; on an array that satisfies the
    invariant this is more than the [ceil(bit_sz/8)] bytes of the buffer
    whenever [bit_sz mod 32 < 25], and the call writes past its end. *)
Theorem randfill_overruns (rnd : Z -> Z) (b : bitarray) :
  wf b -> bit_sz b mod 32 < 25 -> bitarray_randfill rnd b = Undefined.
Proof.
  intros [Hsz Hlen] Hr. unfold bitarray_randfill.
  assert (0 <= bit_sz b / 32) by (apply Z.div_pos; lia).
  apply randfill_loop_overrun; try lia.
  rewrite Hlen.
  pose proof (Z.div_mod (bit_sz b) 32 ltac:(lia)).
  pose proof (Z.mod_pos_bound (bit_sz b) 32 ltac:(lia)).
  pose proof (Z.div_mod (bit_sz b + 7) 8 ltac:(lia)).
  pose proof (Z.mod_pos_bound (bit_sz b + 7) 8 ltac:(lia)).
  lia.
Qed.

Lemma randfill_overruns_witness :
  bitarray_randfill (fun i => 305419896 + i) rotate_scenario = Undefined.
Proof.
  apply (randfill_overruns _ rotate_scenario).
  - split; vm_compute; congruence.
  - vm_compute. reflexivity.
Defined.

Lemma randfill_loop_spec rnd fuel : forall i b,
  0 <= i <= bit_sz b / 32 + 1 ->
  Z.of_nat (length (buf b)) = 4 * (bit_sz b / 32 + 1) ->
  bit_sz b / 32 + 1 - i <= Z.of_nat fuel ->
  exists b', randfill_loop fuel rnd i b = Returns b' /\
    bit_sz b' = bit_sz b /\ length (buf b') = length (buf b) /\
    forall k, 0 <= k -> buf b' !! Z.to_nat k =
      if (4 * i <=? k) && (k <? 4 * (bit_sz b / 32 + 1))
      then Some (to_char (Z.shiftr (rnd (k / 4)) (8 * (k mod 4))))
      else buf b !! Z.to_nat k.
Proof.
  induction fuel as [|fuel IH]; intros i b Hi Hlen Hfuel; simpl;
    destruct (Z.ltb_spec i (bit_sz b / 32 + 1)) as [Hlt|Hge]; try lia.
  - exists b. split; [reflexivity|]. split; [reflexivity|].
    split; [reflexivity|]. intros k Hk.
    destruct (Z.leb_spec (4 * i) k), (Z.ltb_spec k (4 * (bit_sz b / 32 + 1)));
      simpl; try lia; reflexivity.
  - destruct (store_int32_spec b i (rnd i) ltac:(lia) ltac:(lia))
      as (b1 & Hst & Hsz1 & Hl1 & Hbytes1).
    rewrite Hst, ret_bind.
    destruct (IH (i + 1) b1 ltac:(rewrite Hsz1; lia)
                ltac:(rewrite Hsz1, Hl1; lia) ltac:(rewrite Hsz1; lia))
      as (b' & Hloop & Hsz' & Hl' & Hbytes').
    exists b'. split; [exact Hloop|]. split; [congruence|].
    split; [congruence|]. intros k Hk.
    rewrite Hbytes', Hbytes1, Hsz1 by lia.
    destruct (Z.leb_spec (4 * (i + 1)) k), (Z.leb_spec (4 * i) k),
      (Z.ltb_spec k (4 * (bit_sz b / 32 + 1))), (Z.ltb_spec k (4 * i + 4));
      simpl; try lia; try reflexivity.
    assert (k / 4 = i) as ->
      by (symmetry; apply (Z.div_unique k 4 i (k - 4 * i)); lia).
    assert (k mod 4 = k - 4 * i) as ->
      by (symmetry; apply (Z.mod_unique k 4 i (k - 4 * i)); lia).
    reflexivity.
  - exists b. split; [reflexivity|]. split; [reflexivity|].
    split; [reflexivity|]. intros k Hk.
    destruct (Z.leb_spec (4 * i) k), (Z.ltb_spec k (4 * (bit_sz b / 32 + 1)));
      simpl; try lia; reflexivity.
Qed.

(** X21: where the fill fits.  On an array that satisfies the invariant
    and has [bit_sz mod 32 >= 25], [bitarray_randfill] returns and the
    words fill the buffer exactly: bit [k] of the array then reads bit
    [k mod 32] of the value that call number [k / 32] of [rand()]
    returned. *)
Theorem randfill_fills (rnd : Z -> Z) (b : bitarray) :
  wf b -> 25 <= bit_sz b mod 32 ->
  exists b', bitarray_randfill rnd b = Returns b' /\
    wf b' /\ bytes_ok b' /\
    forall k, 0 <= k < bit_sz b ->
      bitarray_get b' k = Returns (Z.testbit (rnd (k / 32)) (k mod 32)).
Proof.
  intros Hwf Hr. pose proof Hwf as [Hsz Hlen]. unfold bitarray_randfill.
  assert (Hq : 0 <= bit_sz b / 32) by (apply Z.div_pos; lia).
  assert (HL : Z.of_nat (length (buf b)) = 4 * (bit_sz b / 32 + 1)).
  { rewrite Hlen.
    pose proof (Z.div_mod (bit_sz b) 32 ltac:(lia)).
    pose proof (Z.mod_pos_bound (bit_sz b) 32 ltac:(lia)).
    pose proof (Z.div_mod (bit_sz b + 7) 8 ltac:(lia)).
    pose proof (Z.mod_pos_bound (bit_sz b + 7) 8 ltac:(lia)). lia. }
  destruct (randfill_loop_spec rnd (Z.to_nat (bit_sz b / 32 + 1)) 0 b
              ltac:(lia) HL ltac:(lia)) as (b' & Hloop & Hsz' & Hl' & Hbytes).
  exists b'. split; [exact Hloop|].
  assert (Hwf' : wf b') by (now apply (wf_same_shape b)).
  split; [exact Hwf'|]. split.
  - unfold bytes_ok. apply Forall_lookup. intros n x Hx.
    assert (Hn : (n < length (buf b'))%nat) by (eapply lookup_lt_Some; eauto).
    specialize (Hbytes (Z.of_nat n) ltac:(lia)).
    rewrite Nat2Z.id, Hx in Hbytes.
    destruct (Z.leb_spec (4 * 0) (Z.of_nat n)),
      (Z.ltb_spec (Z.of_nat n) (4 * (bit_sz b / 32 + 1)));
      simpl in Hbytes; try lia.
    injection Hbytes as ->. apply to_char_range.
  - intros k Hk. rewrite <- Hsz' in Hk.
    destruct (wf_lookup b' k Hwf' Hk) as [x Hx].
    rewrite (bitarray_get_returns b' k x Hk Hx). f_equal.
    assert (Hk8 : 0 <= k / 8) by (apply Z.div_pos; lia).
    pose proof (lookup_lt_Some _ _ _ Hx) as Hlt.
    rewrite Hbytes in Hx by lia.
    destruct (Z.leb_spec (4 * 0) (k / 8)),
      (Z.ltb_spec (k / 8) (4 * (bit_sz b / 32 + 1)));
      simpl in Hx; try lia.
    injection Hx as <-.
    pose proof (Z.mod_pos_bound k 8 ltac:(lia)).
    pose proof (Z.mod_pos_bound (k / 8) 4 ltac:(lia)).
    unfold to_char. change 256 with (2 ^ 8).
    rewrite Z.mod_pow2_bits_low, Z.shiftr_spec by lia.
    rewrite Z.div_div by lia. change (8 * 4) with 32.
    f_equal. change 32 with (8 * 4).
    rewrite Z.rem_mul_r by lia. lia.
Qed.

Lemma randfill_fills_witness :
  exists b', bitarray_randfill (fun i => 305419896 + i)
               (mk_bitarray 31 [0; 0; 0; 0]) = Returns b' /\
    wf b' /\ bytes_ok b' /\
    forall k, 0 <= k < 31 ->
      bitarray_get b' k
      = Returns (Z.testbit (305419896 + k / 32) (k mod 32)).
Proof.
  apply (randfill_fills (fun i => 305419896 + i) (mk_bitarray 31 [0; 0; 0; 0])).
  - split; vm_compute; congruence.
  - vm_compute. congruence.
Defined.

(** ** Error behaviour *)

(** X3: accesses outside the array stop on the assertion.  For an
    index at or past [bit_sz], [bitarray_get] and [bitarray_set] abort,
    whatever the buffer holds, and so does [bitarray_rotate_left_one]
    for an offset there, whatever the length. *)
Theorem out_of_range_access_aborts (b : bitarray) (i len : Z) (v : bool) :
  bit_sz b <= i ->
  bitarray_get b i = Aborted /\ bitarray_set b i v = Aborted /\
  bitarray_rotate_left_one b i len = Aborted.
Proof.
  intros Hi. unfold bitarray_rotate_left_one, bitarray_get, bitarray_set.
  rewrite assert_false by (apply Z.ltb_ge; lia). repeat split; reflexivity.
Qed.

Lemma out_of_range_access_aborts_witness :
  bitarray_get rotate_scenario 10 = Aborted /\
  bitarray_set rotate_scenario 10 true = Aborted /\
  bitarray_rotate_left_one rotate_scenario 10 3 = Aborted.
Proof.
  apply (out_of_range_access_aborts rotate_scenario 10 3 true).
  vm_compute. congruence.
Defined.

(** X8: the divisors [modulo] refuses.  For [m = 0] and for every
    [size_t] value [m >= 2^63] the conversion to [ssize_t] is not
    positive and the call stops on [assert(signed_m > 0)], for every
    dividend. *)
Theorem modulo_bad_divisor_aborts (n m : Z) :
  m = 0 \/ 2 ^ 63 <= m <= SIZE_MAX -> modulo n m = Aborted.
Proof.
  intros Hm. unfold modulo.
  assert (Hs : to_ssize_t m <= 0).
  { destruct Hm as [->|Hm]; [vm_compute; congruence|].
    unfold to_ssize_t, to_signed, SIZE_MAX in *. change (64 - 1) with 63.
    replace (m + 2 ^ 63) with (m - 2 ^ 63 + 1 * 2 ^ 64) by lia.
    rewrite Z.mod_add by lia. rewrite Z.mod_small by lia. lia. }
  rewrite assert_false by (apply Z.ltb_ge; exact Hs). reflexivity.
Qed.

Lemma modulo_bad_divisor_aborts_witness :
  modulo 5 0 = Aborted /\ modulo (- 5) SIZE_MAX = Aborted.
Proof.
  split.
  - apply (modulo_bad_divisor_aborts 5 0). left. reflexivity.
  - apply (modulo_bad_divisor_aborts (- 5) SIZE_MAX). right.
    vm_compute. split; congruence.
Defined.

Lemma rotate_multiple_noop_witness :
  bitarray_rotate rotate_scenario 2 5 (-3 * 5) = Returns rotate_scenario.
Proof.
  apply (rotate_multiple_noop rotate_scenario 2 5 (-3)).
  - vm_compute. split; congruence.
  - vm_compute. congruence.
  - vm_compute. split; congruence.
Defined.

Lemma bitarray_rotate_out_of_range_witness :
  bitarray_rotate rotate_scenario 8 3 1 = Aborted.
Proof.
  apply (bitarray_rotate_out_of_range rotate_scenario 8 3 1).
  - vm_compute. split; congruence.
  - vm_compute. congruence.
Defined.

(** ** Ranges that touch the first byte *)

Lemma ssize_neg_returns k :
  SSIZE_MIN < k <= SSIZE_MAX -> ssize_neg k = Returns (- k).
Proof.
  intros Hk. unfold ssize_neg, in_ssize_t.
  replace (SSIZE_MIN <=? - k) with true
    by (symmetry; apply Z.leb_le; unfold SSIZE_MIN, SSIZE_MAX in *; lia).
  replace (- k <=? SSIZE_MAX) with true
    by (symmetry; apply Z.leb_le; unfold SSIZE_MIN, SSIZE_MAX in *; lia).
  reflexivity.
Qed.

(** [reverse_short 0 SIZE_MAX] writes bit [SIZE_MAX] in its first
    iteration. *)
Lemma reverse_short_to_SIZE_MAX_aborts b :
  wf b -> 0 < bit_sz b <= SIZE_MAX -> reverse_short b 0 SIZE_MAX = Aborted.
Proof.
  intros Hwf Hsz. unfold reverse_short. change (Z.shiftr 0 3) with 0.
  destruct (wf_lookup b 0 Hwf ltac:(lia)) as [x Hx].
  change (0 / 8) with 0 in Hx.
  rewrite (buf_read_lookup b 0 x), ret_bind by (lia || assumption).
  destruct (Z.to_nat (SIZE_MAX - 0)) as [|fuel] eqn:E;
    [unfold SIZE_MAX in E; lia|].
  cbn [reverse_short_loop].
  replace (0 <? SIZE_MAX) with true by reflexivity.
  destruct (set_bit_at b 0 (truth (Z.land x (bitmask 0))) Hwf ltac:(lia))
    as (b1 & Hset & Hsz1 & _).
  rewrite Hset, ret_bind.
  rewrite bitarray_set_out_of_range by lia. reflexivity.
Qed.

(** A reversal that starts at bit 0 calls [reverse_short 0 SIZE_MAX]. *)
Lemma reverse_at_0_aborts b right :
  wf b -> bit_sz b <= SIZE_MAX -> 0 <= right < bit_sz b ->
  reverse b 0 right = Aborted.
Proof.
  intros Hwf Hmax Hr. unfold reverse.
  destruct (wf_lookup b 0 Hwf ltac:(lia)) as [x Hx].
  destruct (wf_lookup b right Hwf Hr) as [y Hy].
  change (0 / 8) with 0 in *.
  rewrite (buf_read_lookup b 0 x), ret_bind by (lia || assumption).
  rewrite (buf_read_lookup b (right / 8) y), ret_bind
    by (try apply Z.div_pos; lia || assumption).
  change (to_size_t (wholel_of 0 - 1)) with SIZE_MAX.
  rewrite reverse_short_to_SIZE_MAX_aborts by (auto; lia). reflexivity.
Qed.

(** X13: no rotation that starts at bit 0 rotates.  On a range
    [0, bit_length) of fewer than [2^31] bits, a call whose amount is
    not a multiple of the length aborts: its first reversal starts at
    bit 0, where [wholel - 1] is [SIZE_MAX] and [reverse_short] writes
    bit [SIZE_MAX]. *)
Theorem rotate_at_bit_0_aborts (b : bitarray) (bit_length amount : Z) :
  wf b -> bit_sz b <= SIZE_MAX ->
  0 < bit_length <= bit_sz b -> bit_length < 2 ^ 31 ->
  SSIZE_MIN < amount <= SSIZE_MAX -> amount mod bit_length <> 0 ->
  bitarray_rotate b 0 bit_length amount = Aborted.
Proof.
  intros Hwf Hmax Hlen H31 Hk Hnz. unfold bitarray_rotate.
  rewrite to_size_t_small by lia.
  rewrite assert_true, ret_bind by (apply Z.leb_le; lia).
  rewrite ssize_neg_returns, ret_bind by exact Hk.
  pose proof (Z.rem_bound_abs (- amount) bit_length ltac:(lia)) as Hrem.
  rewrite modulo_returns, ret_bind by (unfold SSIZE_MAX; lia).
  rewrite Z.mod_opp_l_nz by lia.
  pose proof (Z.mod_pos_bound amount bit_length ltac:(lia)) as Hm.
  set (r := bit_length - amount mod bit_length).
  assert (Hr : 0 < r < bit_length) by (unfold r; lia).
  assert (Hint : to_int r = r).
  { unfold to_int. apply to_signed_small; [lia|].
    change (32 - 1) with 31. lia. }
  rewrite Hint.
  replace (bit_length =? 0) with false by (symmetry; apply Z.eqb_neq; lia).
  replace (r =? 0) with false by (symmetry; apply Z.eqb_neq; lia).
  simpl orb. cbv iota. unfold bitarray_rotate_left.
  rewrite (to_size_t_small r) by lia.
  replace (r =? 0) with false by (symmetry; apply Z.eqb_neq; lia).
  rewrite (to_size_t_small (0 + r)) by lia.
  rewrite (to_size_t_small (0 + r - 1)) by lia.
  rewrite reverse_at_0_aborts by (auto; lia). reflexivity.
Qed.

Lemma rotate_at_bit_0_aborts_witness :
  bitarray_rotate rotate_scenario 0 10 3 = Aborted.
Proof.
  apply (rotate_at_bit_0_aborts rotate_scenario 10 3);
    try (vm_compute; congruence); try (vm_compute; split; congruence).
Defined.

Lemma reverse_short_shape b left right b' :
  reverse_short b left right = Returns b' ->
  bit_sz b' = bit_sz b /\ length (buf b') = length (buf b).
Proof.
  apply (reverse_short_pres
           (fun b b' => bit_sz b' = bit_sz b /\
                        length (buf b') = length (buf b))).
  - intros; tauto.
  - intros b1 b2 b3 [? ?] [? ?]. split; congruence.
  - intros b0 k x b0' H. apply buf_write_shape in H. tauto.
Qed.

Lemma reverse_byte_to_SIZE_MAX b i b' :
  0 <= i < SIZE_MAX -> Z.of_nat (length (buf b)) <= SIZE_MAX ->
  reverse_byte b i SIZE_MAX <> Returns b'.
Proof.
  intros Hi Hlen H. unfold reverse_byte in H.
  destruct (Z.to_nat (SIZE_MAX - i)) as [|fuel] eqn:E; [lia|].
  cbn [reverse_byte_loop] in H.
  replace (i <? SIZE_MAX) with true in H by (symmetry; apply Z.ltb_lt; lia).
  do 2 bind_inv H. unfold buf_read in H1.
  destruct (Z.ltb_spec SIZE_MAX (Z.of_nat (length (buf b)))); [lia|].
  discriminate.
Qed.

(** X14: no reversal that ends in the first byte returns.  For
    [left <= right < 8] the right split point is 0, [wholer / 8 - 1] is
    [SIZE_MAX] as a [size_t], and [reverse_byte] is asked to swap up to
    byte [SIZE_MAX]: the call aborts or reads outside the buffer. *)
Theorem reverse_in_first_byte_never_returns (b b' : bitarray)
    (left right : Z) :
  wf b -> bit_sz b <= SIZE_MAX -> 0 <= left <= right -> right < 8 ->
  reverse b left right <> Returns b'.
Proof.
  intros Hwf Hmax Hl Hr H. unfold reverse in H. do 4 bind_inv H.
  apply reverse_short_shape in H2, H3.
  rewrite wholel_of_small, wholer_of_small in H by lia.
  unfold spec_whole_right, code_whole_left in H.
  rewrite (Z.mod_small right 8) in H by lia.
  replace (right - right - 1 + 1) with 0 in H by lia.
  change (to_size_t (Z.quot 0 8 - 1)) with SIZE_MAX in H.
  pose proof (ceil8_bounds left ltac:(lia)) as [Hc Hc8].
  assert (Hq : 0 <= Z.quot (ceil8 left) 8 <= 1).
  { rewrite Z.quot_div_nonneg by lia.
    pose proof (Z.div_mod (ceil8 left) 8 ltac:(lia)). lia. }
  rewrite to_size_t_small in H by (unfold SIZE_MAX; lia).
  apply reverse_byte_to_SIZE_MAX in H; [exact H|unfold SIZE_MAX; lia|].
  destruct Hwf as [Hsz Hlen]. destruct H2 as [_ E2], H3 as [_ E3].
  match goal with
  | |- Z.of_nat (length (buf ?c)) <= _ =>
      replace (length (buf c)) with (length (buf b)) by congruence
  end.
  rewrite Hlen. apply Z.div_le_upper_bound; unfold SIZE_MAX in *; lia.
Qed.

Lemma reverse_in_first_byte_never_returns_witness :
  reverse reverse_scenario 2 5 <> Returns reverse_scenario.
Proof.
  apply (reverse_in_first_byte_never_returns reverse_scenario
           reverse_scenario 2 5); try lia.
  - split; vm_compute; congruence.
  - vm_compute. congruence.
Defined.

(** ** More on the one-bit rotation *)

(** The stored bits after one call, for every bit position of the
    buffer. *)
Lemma rotate_left_one_bits b off len :
  wf b -> 0 <= off -> 0 < len -> off + len <= bit_sz b ->
  bit_sz b <= SIZE_MAX ->
  exists b', bitarray_rotate_left_one b off len = Returns b' /\
    wf b' /\ bit_sz b' = bit_sz b /\
    forall k, 0 <= k -> bit_at b' k =
      bit_at b (if (off <=? k) && (k <? off + len)
                then off + (k - off + 1) mod len else k).
Proof.
  intros Hwf Ho Hl Hr Hmax. unfold bitarray_rotate_left_one.
  rewrite get_bit_at, ret_bind by (auto; lia).
  rewrite (to_size_t_small (off + len)) by lia. cbv zeta.
  destruct (rotate_left_one_loop_spec (off + len)
              (S (Z.to_nat (off + len))) off b
              Hwf ltac:(lia) Hr Hmax ltac:(lia))
    as (b1 & Hloop & Hwf1 & Hsz1 & Hbits1).
  rewrite Hloop, ret_bind. simpl.
  destruct (set_bit_at b1 (off + len - 1) (bit_at b off) Hwf1 ltac:(lia))
    as (b' & Hset & Hsz & Hlen & Hbits).
  exists b'. split; [exact Hset|].
  split; [now apply (wf_same_shape b1)|]. split; [congruence|].
  intros k Hk. rewrite Hbits, Hbits1 by lia.
  destruct (Z.leb_spec off k), (Z.ltb_spec k (off + len)),
    (Z.ltb_spec k (off + len - 1)), (Z.eqb_spec k (off + len - 1));
    simpl; try lia; try reflexivity.
  - rewrite Z.mod_small by lia. f_equal. lia.
  - subst k. replace (off + len - 1 - off + 1) with len by lia.
    rewrite Z.mod_same, Z.add_0_r by lia. reflexivity.
Qed.

(** [n] calls of [bitarray_rotate_left_one] in a row. *)
Lemma rotate_left_one_iter_bits off len n : forall b,
  wf b -> 0 <= off -> 0 < len -> off + len <= bit_sz b ->
  bit_sz b <= SIZE_MAX ->
  exists b',
    Nat.iter n (fun r => r ≫= fun c => bitarray_rotate_left_one c off len)
      (Returns b) = Returns b' /\
    wf b' /\ bit_sz b' = bit_sz b /\
    forall k, 0 <= k -> bit_at b' k =
      bit_at b (if (off <=? k) && (k <? off + len)
                then off + (k - off + Z.of_nat n) mod len else k).
Proof.
  induction n as [|n IH]; intros b Hwf Ho Hl Hr Hmax.
  - exists b. split; [reflexivity|]. split; [exact Hwf|].
    split; [reflexivity|]. intros k Hk.
    destruct (Z.leb_spec off k), (Z.ltb_spec k (off + len));
      simpl; try reflexivity.
    rewrite Z.add_0_r, Z.mod_small by lia. f_equal. lia.
  - destruct (IH b Hwf Ho Hl Hr Hmax) as (b1 & Hit & Hwf1 & Hsz1 & Hbits1).
    destruct (rotate_left_one_bits b1 off len Hwf1 Ho Hl ltac:(lia) ltac:(lia))
      as (b' & Hrot & Hwf' & Hsz' & Hbits').
    exists b'. rewrite Nat.iter_succ, Hit, ret_bind.
    split; [exact Hrot|]. split; [exact Hwf'|]. split; [congruence|].
    intros k Hk. rewrite Hbits' by lia.
    destruct (Z.leb_spec off k), (Z.ltb_spec k (off + len)); simpl;
      try (rewrite Hbits1 by lia;
           destruct (Z.leb_spec off k), (Z.ltb_spec k (off + len));
           simpl; try lia; reflexivity).
    pose proof (Z.mod_pos_bound (k - off + 1) len ltac:(lia)) as Hm.
    rewrite Hbits1 by lia.
    destruct (Z.leb_spec off (off + (k - off + 1) mod len)),
      (Z.ltb_spec (off + (k - off + 1) mod len) (off + len));
      simpl; try lia.
    do 2 f_equal.
    replace (off + (k - off + 1) mod len - off + Z.of_nat n)
      with ((k - off + 1) mod len + Z.of_nat n) by lia.
    rewrite Z.add_mod_idemp_l by lia. f_equal. lia.
Qed.

(** X18: one-bit rotations add up.  [n] calls of
    [bitarray_rotate_left_one] on a non-empty range inside the array all
    return and rotate the range left by [n]: index [k] of the range then
    reads what index [bit_offset + (k - bit_offset + n) mod bit_length]
    read at the start; in particular [bit_length] calls restore every
    bit. *)
Theorem rotate_left_one_iterated (b : bitarray) (bit_offset bit_length : Z)
    (n : nat) :
  wf b -> 0 <= bit_offset -> 0 < bit_length ->
  bit_offset + bit_length <= bit_sz b -> bit_sz b <= SIZE_MAX ->
  exists b',
    Nat.iter n
      (fun r => r ≫= fun c => bitarray_rotate_left_one c bit_offset bit_length)
      (Returns b) = Returns b' /\
    (forall k, 0 <= k < bit_sz b ->
       bitarray_get b' k =
       bitarray_get b
         (if (bit_offset <=? k) && (k <? bit_offset + bit_length)
          then bit_offset + (k - bit_offset + Z.of_nat n) mod bit_length
          else k)) /\
    (Z.of_nat n = bit_length ->
     forall k, 0 <= k < bit_sz b -> bitarray_get b' k = bitarray_get b k).
Proof.
  intros Hwf Ho Hl Hr Hmax.
  destruct (rotate_left_one_iter_bits bit_offset bit_length n b
              Hwf Ho Hl Hr Hmax) as (b' & Hit & Hwf' & Hsz' & Hbits).
  exists b'. split; [exact Hit|].
  assert (Hget : forall k, 0 <= k < bit_sz b ->
    bitarray_get b' k =
    bitarray_get b
      (if (bit_offset <=? k) && (k <? bit_offset + bit_length)
       then bit_offset + (k - bit_offset + Z.of_nat n) mod bit_length
       else k)).
  { intros k Hk. rewrite (get_bit_at b') by (auto; lia).
    rewrite Hbits by lia.
    pose proof (Z.mod_pos_bound (k - bit_offset + Z.of_nat n) bit_length
                  ltac:(lia)).
    destruct (Z.leb_spec bit_offset k),
      (Z.ltb_spec k (bit_offset + bit_length)); simpl;
      rewrite get_bit_at by (auto; lia); reflexivity. }
  split; [exact Hget|].
  intros Hn k Hk. rewrite Hget by exact Hk.
  destruct (Z.leb_spec bit_offset k),
    (Z.ltb_spec k (bit_offset + bit_length)); simpl; try reflexivity.
  rewrite Hn. replace (k - bit_offset + bit_length)
    with (k - bit_offset + 1 * bit_length) by lia.
  rewrite Z.mod_add, Z.mod_small by lia. f_equal. lia.
Qed.

Lemma rotate_left_one_iterated_witness :
  exists b',
    Nat.iter 5
      (fun r => r ≫= fun c => bitarray_rotate_left_one c 2 5)
      (Returns rotate_scenario) = Returns b' /\
    (forall k, 0 <= k < bit_sz rotate_scenario ->
       bitarray_get b' k =
       bitarray_get rotate_scenario
         (if (2 <=? k) && (k <? 2 + 5)
          then 2 + (k - 2 + Z.of_nat 5) mod 5 else k)) /\
    (Z.of_nat 5 = 5 ->
     forall k, 0 <= k < bit_sz rotate_scenario ->
               bitarray_get b' k = bitarray_get rotate_scenario k).
Proof.
  apply (rotate_left_one_iterated rotate_scenario 2 5 5);
    try lia; try (vm_compute; congruence).
  split; vm_compute; congruence.
Defined.

(** X19: the one-bit rotation of an empty range.  With
    [bit_length = 0] and an offset inside the array the loop does not
    run and the first bit is written back to its own place: the call
    returns and every bit reads as before. *)
Theorem rotate_left_one_empty_range (b : bitarray) (bit_offset : Z) :
  wf b -> 0 <= bit_offset < bit_sz b -> bit_sz b <= SIZE_MAX ->
  exists b', bitarray_rotate_left_one b bit_offset 0 = Returns b' /\
    wf b' /\
    forall k, 0 <= k < bit_sz b -> bitarray_get b' k = bitarray_get b k.
Proof.
  intros Hwf Ho Hmax. unfold bitarray_rotate_left_one.
  rewrite get_bit_at, ret_bind by (auto; lia).
  rewrite (to_size_t_small (bit_offset + 0)) by lia. cbv zeta.
  cbn [rotate_left_one_loop].
  rewrite (to_size_t_small (bit_offset + 1)) by lia.
  replace (bit_offset + 1 <? bit_offset + 0) with false
    by (symmetry; apply Z.ltb_ge; lia).
  rewrite ret_bind. simpl.
  destruct (set_bit_at b bit_offset (bit_at b bit_offset) Hwf Ho)
    as (b' & Hset & Hsz & Hlen & Hbits).
  exists b'. split; [exact Hset|].
  assert (Hwf' : wf b') by (now apply (wf_same_shape b)).
  split; [exact Hwf'|]. intros k Hk.
  rewrite (get_bit_at b'), (get_bit_at b) by (auto; lia).
  rewrite Hbits by lia.
  destruct (Z.eqb_spec k bit_offset) as [->|]; reflexivity.
Qed.

Lemma rotate_left_one_empty_range_witness :
  exists b', bitarray_rotate_left_one rotate_scenario 4 0 = Returns b' /\
    wf b' /\
    forall k, 0 <= k < bit_sz rotate_scenario ->
              bitarray_get b' k = bitarray_get rotate_scenario k.
Proof.
  apply (rotate_left_one_empty_range rotate_scenario 4).
  - split; vm_compute; congruence.
  - vm_compute. split; congruence.
  - vm_compute. congruence.
Defined.

(** ** The rotation amount *)

(** X12: only the residue of the amount counts.  On a non-empty range
    of at most [2^62] bits, two amounts that differ by a multiple of the
    length give the same call: the same outcome and, when it returns,
    the same array; so do the amounts [k] and [k - bit_length]. *)
Theorem rotate_amount_periodic (b : bitarray)
    (bit_offset bit_length amount q : Z) :
  0 < bit_length <= 2 ^ 62 ->
  SSIZE_MIN < amount <= SSIZE_MAX ->
  SSIZE_MIN < amount + q * bit_length <= SSIZE_MAX ->
  bitarray_rotate b bit_offset bit_length (amount + q * bit_length)
  = bitarray_rotate b bit_offset bit_length amount.
Proof.
  intros Hlen Hk Hk'. unfold bitarray_rotate.
  destruct (assert _); try reflexivity. rewrite !ret_bind.
  rewrite !ssize_neg_returns, !ret_bind by assumption.
  pose proof (Z.rem_bound_abs (- amount) bit_length ltac:(lia)).
  pose proof (Z.rem_bound_abs (- (amount + q * bit_length)) bit_length
                ltac:(lia)).
  rewrite !modulo_returns by (unfold SSIZE_MAX; lia).
  replace (- (amount + q * bit_length))
    with (- amount + (- q) * bit_length) by lia.
  rewrite Z.mod_add by lia. reflexivity.
Qed.

Lemma rotate_amount_periodic_witness :
  bitarray_rotate range_1101 9 4 (1 + (-2) * 4)
  = bitarray_rotate range_1101 9 4 1.
Proof.
  apply (rotate_amount_periodic range_1101 9 4 1 (-2));
    vm_compute; split; congruence.
Defined.

(** ** The bytes a rotation can change *)

Lemma kept_refl lo hi b : bytes_outside_kept lo hi b b.
Proof. intros n _ _. reflexivity. Qed.

Lemma kept_trans lo hi b1 b2 b3 :
  bytes_outside_kept lo hi b1 b2 -> bytes_outside_kept lo hi b2 b3 ->
  bytes_outside_kept lo hi b1 b3.
Proof. intros H12 H23 n Hn Hout. rewrite H23, H12 by assumption. reflexivity. Qed.

Lemma kept_weaken lo hi lo' hi' b b' :
  lo' <= lo -> hi <= hi' ->
  bytes_outside_kept lo hi b b' -> bytes_outside_kept lo' hi' b b'.
Proof. intros Hlo Hhi H n Hn Hout. apply H; lia. Qed.

Lemma buf_write_kept lo hi b k x b' :
  0 <= k -> lo <= k <= hi ->
  buf_write b k x = Returns b' -> bytes_outside_kept lo hi b b'.
Proof.
  intros Hk Hin. unfold buf_write. destruct (k <? _); [|discriminate].
  intros [= <-] n Hn Hout. simpl.
  apply list_lookup_insert_ne. lia.
Qed.

Lemma bitarray_set_kept lo hi b i v b' :
  0 <= i -> 8 * lo <= i < 8 * (hi + 1) ->
  bitarray_set b i v = Returns b' -> bytes_outside_kept lo hi b b'.
Proof.
  intros Hi Hin H. unfold bitarray_set in H. do 2 bind_inv H.
  apply (buf_write_kept lo hi) in H; [exact H|apply Z.div_pos; lia|].
  split; [apply Z.div_le_lower_bound; lia|].
  assert (i / 8 < hi + 1) by (apply Z.div_lt_upper_bound; lia). lia.
Qed.

Lemma reverse_short_loop_kept lo hi byte fuel : forall i j b b',
  0 <= i -> j <= SIZE_MAX -> 8 * lo <= i -> j < 8 * (hi + 1) ->
  reverse_short_loop fuel byte i j b = Returns b' ->
  bytes_outside_kept lo hi b b'.
Proof.
  induction fuel as [|fuel IH]; intros i j b b' Hi Hj Hlo Hhi; simpl;
    destruct (Z.ltb_spec i j) as [Hlt|Hge]; try discriminate;
    try (intros [= <-]; apply kept_refl).
  intros H. do 2 bind_inv H.
  rewrite !to_size_t_small in H by lia.
  apply (bitarray_set_kept lo hi) in H0, H1; try lia.
  apply IH in H; try lia.
  eauto using kept_trans.
Qed.

Lemma reverse_short_kept lo hi b left right b' :
  0 <= left -> right <= SIZE_MAX -> 8 * lo <= left -> right < 8 * (hi + 1) ->
  reverse_short b left right = Returns b' -> bytes_outside_kept lo hi b b'.
Proof.
  intros Hl Hr Hlo Hhi H. unfold reverse_short in H. bind_inv H.
  now apply (reverse_short_loop_kept lo hi) in H.
Qed.

Lemma reverse_byte_loop_kept lo hi fuel : forall i j b b',
  0 <= i -> lo <= i -> j <= hi -> 8 * hi + 7 <= SIZE_MAX ->
  reverse_byte_loop fuel i j b = Returns b' -> bytes_outside_kept lo hi b b'.
Proof.
  induction fuel as [|fuel IH]; intros i j b b' Hi Hlo Hhi Hmax; simpl;
    destruct (Z.ltb_spec i j) as [Hlt|Hge]; try discriminate;
    try (intros [= <-]; apply kept_refl).
  intros H. do 6 bind_inv H.
  rewrite !to_size_t_small in H, H4, H5 by lia.
  apply (buf_write_kept lo hi) in H2, H3; try lia.
  apply (reverse_short_kept lo hi) in H4, H5; try lia.
  apply IH in H; try lia.
  eauto using kept_trans.
Qed.

(** A reversal only changes bytes that hold bits of its range. *)
Lemma reverse_kept b left right b' :
  0 < left <= 120 -> 8 <= right <= 127 -> left <= right ->
  reverse b left right = Returns b' ->
  bytes_outside_kept (left / 8) (right / 8) b b'.
Proof.
  intros Hl Hr Hlr H. unfold reverse in H. cbv zeta in H. do 4 bind_inv H.
  rewrite wholel_of_small in H, H2 by lia.
  rewrite wholer_of_small in H, H3 by lia.
  unfold code_whole_left, spec_whole_right in *.
  pose proof (ceil8_bounds left ltac:(lia)) as [Hc Hc8].
  pose proof (Z.div_mod (ceil8 left) 8 ltac:(lia)) as Hcd.
  pose proof (Z.div_mod left 8 ltac:(lia)) as Hld.
  pose proof (Z.mod_pos_bound left 8 ltac:(lia)) as Hlm.
  pose proof (Z.div_mod right 8 ltac:(lia)) as Hrd.
  pose proof (Z.mod_pos_bound right 8 ltac:(lia)) as Hrm.
  assert (Hq : left / 8 <= right / 8) by (apply Z.div_le_mono; lia).
  rewrite (to_size_t_small (ceil8 left - 1)) in H2 by (unfold SIZE_MAX; lia).
  rewrite (to_size_t_small (right - right mod 8 - 1 + 1)) in H3
    by (unfold SIZE_MAX; lia).
  rewrite !Z.quot_div_nonneg in H by lia.
  replace (right - right mod 8 - 1 + 1) with (right / 8 * 8) in H by lia.
  rewrite Z.div_mul in H by lia.
  rewrite (to_size_t_small (ceil8 left / 8)) in H by (unfold SIZE_MAX; lia).
  rewrite (to_size_t_small (right / 8 - 1)) in H by (unfold SIZE_MAX; lia).
  apply (reverse_short_kept (left / 8) (right / 8)) in H2;
    try (unfold SIZE_MAX; lia).
  apply (reverse_short_kept (left / 8) (right / 8)) in H3;
    try (unfold SIZE_MAX; lia).
  unfold reverse_byte in H.
  apply (reverse_byte_loop_kept (left / 8) (right / 8)) in H;
    try (unfold SIZE_MAX; lia).
  eauto using kept_trans.
Qed.

Lemma modulo_range n m r :
  0 < m <= 2 ^ 62 -> modulo n m = Returns r -> 0 <= r < m.
Proof.
  intros Hm H.
  pose proof (Z.rem_bound_abs n m ltac:(lia)).
  rewrite modulo_returns in H by (unfold SSIZE_MAX; lia).
  injection H as <-. apply Z.mod_pos_bound. lia.
Qed.

(** X15: a rotation only changes bytes that hold bits of its range.
    For a range [bit_offset, bit_offset + bit_length) that starts at bit
    8 or later and ends by bit 120, whenever [bitarray_rotate] returns,
    the size is unchanged and every bit stored in a byte before the
    first or after the last byte of the range reads as before. *)
Theorem rotate_keeps_other_bytes (b b' : bitarray)
    (bit_offset bit_length amount : Z) :
  8 <= bit_offset -> 0 < bit_length -> bit_offset + bit_length <= 121 ->
  bitarray_rotate b bit_offset bit_length amount = Returns b' ->
  bitarray_get_bit_sz b' = bitarray_get_bit_sz b /\
  forall k, 0 <= k ->
    k / 8 < bit_offset / 8 \/ (bit_offset + bit_length - 1) / 8 < k / 8 ->
    bitarray_get b' k = bitarray_get b k.
Proof.
  intros Ho Hl Hend Hrot.
  pose proof (bitarray_rotate_bit_sz _ _ _ _ _ Hrot) as Hsz.
  assert (Hshape : length (buf b') = length (buf b)).
  { apply (bitarray_rotate_pres
             (fun b b' => length (buf b') = length (buf b))) in Hrot;
      [exact Hrot|reflexivity|intros; congruence|].
    intros b0 k x b0' Hw. now apply buf_write_shape in Hw. }
  split; [exact Hsz|].
  assert (Hkept : bytes_outside_kept (bit_offset / 8)
                    ((bit_offset + bit_length - 1) / 8) b b').
  { unfold bitarray_rotate in Hrot. do 3 bind_inv Hrot.
    apply modulo_range in H1; [|lia].
    rewrite (to_signed_small 32) in Hrot
      by (try lia; change (2 ^ (32 - 1)) with 2147483648; lia).
    destruct (_ || _); [injection Hrot as <-; apply kept_refl|].
    unfold bitarray_rotate_left in Hrot.
    rewrite (to_size_t_small b2) in Hrot by (unfold SIZE_MAX; lia).
    destruct (Z.eqb_spec b2 0) as [|Hnz];
      [injection Hrot as <-; apply kept_refl|].
    rewrite (to_size_t_small (bit_offset + b2)) in Hrot
      by (unfold SIZE_MAX; lia).
    rewrite (to_size_t_small (bit_offset + b2 - 1)) in Hrot
      by (unfold SIZE_MAX; lia).
    rewrite (to_size_t_small (bit_offset + bit_length)) in Hrot
      by (unfold SIZE_MAX; lia).
    rewrite (to_size_t_small (bit_offset + bit_length - 1)) in Hrot
      by (unfold SIZE_MAX; lia).
    do 2 bind_inv Hrot.
    apply reverse_kept in Hrot, H2, H3; try lia.
    assert (bit_offset / 8 <= (bit_offset + b2) / 8)
      by (apply Z.div_le_mono; lia).
    assert ((bit_offset + b2 - 1) / 8 <= (bit_offset + bit_length - 1) / 8)
      by (apply Z.div_le_mono; lia).
    eapply kept_trans; [|exact Hrot].
    eapply kept_trans;
      [eapply kept_weaken; [| |exact H2]|eapply kept_weaken; [| |exact H3]];
      lia. }
  intros k Hk Hout. unfold bitarray_get, buf_read.
  rewrite Hsz, Hshape, Hkept; [reflexivity|apply Z.div_pos; lia|exact Hout].
Qed.

Lemma rotate_keeps_other_bytes_witness :
  bitarray_get_bit_sz (mk_bitarray 16 [0; 238])
  = bitarray_get_bit_sz range_1101 /\
  forall k, 0 <= k ->
    k / 8 < 9 / 8 \/ (9 + 4 - 1) / 8 < k / 8 ->
    bitarray_get (mk_bitarray 16 [0; 238]) k = bitarray_get range_1101 k.
Proof.
  apply (rotate_keeps_other_bytes range_1101 (mk_bitarray 16 [0; 238]) 9 4 1);
    try lia. reflexivity.
Defined.

Lemma rotate_empty_range_never_returns_witness :
  bitarray_rotate reverse_scenario 3 0 5 <> Returns reverse_scenario.
Proof.
  apply (rotate_empty_range_never_returns reverse_scenario 3 5
           reverse_scenario).
Defined.

(** ** What [reverse_byte] does *)

(** Case analysis on the integer comparisons of the goal. *)
Ltac bool_cases :=
  repeat match goal with
         | |- context [?a <=? ?c] => destruct (Z.leb_spec a c)
         | |- context [?a <? ?c] => destruct (Z.ltb_spec a c)
         | |- context [?a =? ?c] => destruct (Z.eqb_spec a c)
         end;
  simpl; try lia.

Lemma div_mod_8 c q : 0 <= q < 8 -> (8 * c + q) / 8 = c /\ (8 * c + q) mod 8 = q.
Proof.
  intros Hq. split.
  - symmetry. apply (Z.div_unique (8 * c + q) 8 c q); lia.
  - symmetry. apply (Z.mod_unique (8 * c + q) 8 c q); lia.
Qed.

Lemma byte_bits b c x q :
  0 <= c -> 0 <= q < 8 -> buf b !! Z.to_nat c = Some x ->
  bit_at b (8 * c + q) = Z.testbit x q.
Proof.
  intros Hc Hq Hx. unfold bit_at.
  destruct (div_mod_8 c q Hq) as [-> ->]. now rewrite Hx.
Qed.

Lemma buf_write_bit_at b c x :
  0 <= c < Z.of_nat (length (buf b)) ->
  exists b', buf_write b c x = Returns b' /\
    bit_sz b' = bit_sz b /\ length (buf b') = length (buf b) /\
    forall k, 0 <= k -> bit_at b' k =
      if k / 8 =? c then Z.testbit x (k mod 8) else bit_at b k.
Proof.
  intros Hc. rewrite buf_write_in by lia. eexists. split; [reflexivity|].
  cbn [bit_sz buf]. split; [reflexivity|]. split; [apply length_insert|].
  intros k Hk. unfold bit_at. cbn [buf].
  assert (0 <= k / 8) by (apply Z.div_pos; lia).
  pose proof (Z.mod_pos_bound k 8 ltac:(lia)).
  destruct (Z.eqb_spec (k / 8) c) as [->|Hne].
  - rewrite list_lookup_insert_eq by lia.
    unfold to_char. change 256 with (2 ^ 8).
    apply Z.mod_pow2_bits_low. lia.
  - rewrite list_lookup_insert_ne by lia. reflexivity.
Qed.

(** [reverse_short] on the whole byte [c]. *)
Lemma reverse_short_full_byte b c :
  wf b -> bit_sz b <= SIZE_MAX -> 0 <= c -> 8 * c + 7 < bit_sz b ->
  exists b', reverse_short b (8 * c) (8 * c + 7) = Returns b' /\
    wf b' /\ bit_sz b' = bit_sz b /\
    forall k, 0 <= k -> bit_at b' k =
      if k / 8 =? c
      then bit_at b (8 * c + Z.min (k mod 8) (7 - k mod 8))
      else bit_at b k.
Proof.
  intros Hwf Hmax Hc Hin. unfold reverse_short.
  rewrite Z.shiftr_div_pow2 by lia. change (2 ^ 3) with 8.
  destruct (wf_lookup b (8 * c) Hwf ltac:(lia)) as [x Hx].
  rewrite (Z.mul_comm 8 c), Z.div_mul in * by lia.
  rewrite (buf_read_lookup b c x), ret_bind by (lia || assumption).
  destruct (reverse_short_loop_spec x (Z.to_nat (c * 8 + 7 - c * 8))
              (c * 8) (c * 8 + 7) b Hwf ltac:(lia) ltac:(lia) Hmax ltac:(lia))
    as (b' & Hloop & Hwf' & Hsz' & Hbits').
  exists b'. split; [exact Hloop|]. split; [exact Hwf'|].
  split; [exact Hsz'|]. intros k Hk. rewrite Hbits' by lia.
  pose proof (Z.div_mod k 8 ltac:(lia)) as Hd.
  pose proof (Z.mod_pos_bound k 8 ltac:(lia)) as Hm.
  destruct (Z.eqb_spec (k / 8) c) as [Heq|Hne].
  - replace ((c * 8 <=? k) && (k <=? c * 8 + 7)
             && negb (2 * k =? c * 8 + (c * 8 + 7))) with true
      by (symmetry; bool_cases).
    rewrite (Z.mul_comm c 8), (byte_bits b c x) by (lia || assumption).
    f_equal.
    replace (Z.min k (8 * c + (8 * c + 7) - k))
      with (8 * c + Z.min (k mod 8) (7 - k mod 8)) by lia.
    apply (div_mod_8 c). lia.
  - replace ((c * 8 <=? k) && (k <=? c * 8 + 7)
             && negb (2 * k =? c * 8 + (c * 8 + 7))) with false;
      [reflexivity|].
    symmetry. bool_cases.
Qed.

Lemma reverse_byte_loop_spec fuel : forall i j b,
  wf b -> bit_sz b <= SIZE_MAX -> 0 <= i -> 8 * j + 7 < bit_sz b ->
  j - i <= Z.of_nat fuel ->
  exists b', reverse_byte_loop fuel i j b = Returns b' /\
    wf b' /\ bit_sz b' = bit_sz b /\
    forall k, 0 <= k -> bit_at b' k =
      if (i <=? k / 8) && (k / 8 <=? j) && negb (2 * (k / 8) =? i + j)
      then bit_at b (8 * (i + j - k / 8) + Z.min (k mod 8) (7 - k mod 8))
      else bit_at b k.
Proof.
  induction fuel as [|fuel IH]; intros i j b Hwf Hmax Hi Hj Hfuel; simpl;
    destruct (Z.ltb_spec i j) as [Hlt|Hge]; try lia.
  - exists b. split; [reflexivity|]. split; [exact Hwf|].
    split; [reflexivity|]. intros k Hk. bool_cases; reflexivity.
  - destruct (wf_lookup b (8 * i) Hwf ltac:(lia)) as [xi Hxi].
    destruct (wf_lookup b (8 * j) Hwf ltac:(lia)) as [xj Hxj].
    rewrite (Z.mul_comm 8 i), Z.div_mul in Hxi by lia.
    rewrite (Z.mul_comm 8 j), Z.div_mul in Hxj by lia.
    pose proof (lookup_lt_Some _ _ _ Hxi) as Hli.
    pose proof (lookup_lt_Some _ _ _ Hxj) as Hlj.
    rewrite (buf_read_lookup b i xi), ret_bind by (lia || assumption).
    rewrite (buf_read_lookup b j xj), ret_bind by (lia || assumption).
    destruct (buf_write_bit_at b i xj ltac:(lia))
      as (b1 & Hw1 & Hsz1 & Hl1 & Hbits1).
    rewrite Hw1, ret_bind.
    destruct (buf_write_bit_at b1 j xi ltac:(lia))
      as (b2 & Hw2 & Hsz2 & Hl2 & Hbits2).
    rewrite Hw2, ret_bind.
    assert (Hwf2 : wf b2)
      by (apply (wf_same_shape b); [assumption|congruence|congruence]).
    rewrite !to_size_t_small by lia.
    destruct (reverse_short_full_byte b2 i Hwf2 ltac:(lia) Hi ltac:(lia))
      as (b3 & Hr3 & Hwf3 & Hsz3 & Hbits3).
    rewrite Hr3, ret_bind.
    destruct (reverse_short_full_byte b3 j Hwf3 ltac:(lia) ltac:(lia)
                ltac:(lia)) as (b4 & Hr4 & Hwf4 & Hsz4 & Hbits4).
    rewrite Hr4, ret_bind.
    destruct (IH (i + 1) (j - 1) b4 Hwf4 ltac:(lia) ltac:(lia) ltac:(lia)
                ltac:(lia)) as (b' & Hloop & Hwf' & Hsz' & Hbits').
    exists b'. split; [exact Hloop|]. split; [exact Hwf'|].
    split; [congruence|]. intros k Hk.
    assert (Hb4 : forall t, 0 <= t -> bit_at b4 t =
      if t / 8 =? j then bit_at b (8 * i + Z.min (t mod 8) (7 - t mod 8))
      else if t / 8 =? i
           then bit_at b (8 * j + Z.min (t mod 8) (7 - t mod 8))
           else bit_at b t).
    { intros t Ht. pose proof (Z.mod_pos_bound t 8 ltac:(lia)) as Htm.
      set (m := Z.min (t mod 8) (7 - t mod 8)).
      assert (Hmr : 0 <= m < 8) by (unfold m; lia).
      rewrite Hbits4 by lia. fold m.
      destruct (Z.eqb_spec (t / 8) j) as [Htj|Htj].
      - rewrite Hbits3 by lia.
        destruct (div_mod_8 j m Hmr) as [-> Hmm].
        replace (j =? i) with false by (symmetry; apply Z.eqb_neq; lia).
        rewrite Hbits2 by lia.
        destruct (div_mod_8 j m Hmr) as [-> ->]. rewrite Z.eqb_refl.
        symmetry. apply byte_bits; (lia || assumption).
      - rewrite Hbits3 by lia. fold m.
        destruct (Z.eqb_spec (t / 8) i) as [Hti|Hti].
        + rewrite Hbits2 by lia.
          destruct (div_mod_8 i m Hmr) as [-> ->].
          replace (i =? j) with false by (symmetry; apply Z.eqb_neq; lia).
          rewrite Hbits1 by lia.
          destruct (div_mod_8 i m Hmr) as [-> ->]. rewrite Z.eqb_refl.
          symmetry. apply byte_bits; (lia || assumption).
        + rewrite Hbits2 by lia.
          replace (t / 8 =? j) with false by (symmetry; apply Z.eqb_neq; lia).
          rewrite Hbits1 by lia.
          replace (t / 8 =? i) with false by (symmetry; apply Z.eqb_neq; lia).
          reflexivity. }
    rewrite Hbits' by lia.
    pose proof (Z.mod_pos_bound k 8 ltac:(lia)) as Hkm.
    set (m := Z.min (k mod 8) (7 - k mod 8)).
    assert (Hmr : 0 <= m < 8) by (unfold m; lia).
    assert (Hk8 : 0 <= k / 8) by (apply Z.div_pos; lia).
    replace (i + 1 + (j - 1)) with (i + j) by lia.
    destruct ((i + 1 <=? k / 8) && (k / 8 <=? j - 1)
              && negb (2 * (k / 8) =? i + j)) eqn:Hin.
    + assert (Hr : i + 1 <= k / 8 <= j - 1 /\ 2 * (k / 8) <> i + j).
      { revert Hin. bool_cases; discriminate. }
      rewrite Hb4 by lia.
      destruct (div_mod_8 (i + j - k / 8) m Hmr) as [-> _].
      replace (i + j - k / 8 =? j) with false
        by (symmetry; apply Z.eqb_neq; lia).
      replace (i + j - k / 8 =? i) with false
        by (symmetry; apply Z.eqb_neq; lia).
      replace ((i <=? k / 8) && (k / 8 <=? j) && negb (2 * (k / 8) =? i + j))
        with true by (symmetry; bool_cases).
      reflexivity.
    + rewrite Hb4 by lia. fold m.
      destruct (Z.eqb_spec (k / 8) j) as [Hkj|Hkj];
        [|destruct (Z.eqb_spec (k / 8) i) as [Hki|Hki]].
      * replace ((i <=? k / 8) && (k / 8 <=? j)
                 && negb (2 * (k / 8) =? i + j))
          with true by (symmetry; bool_cases).
        f_equal. lia.
      * replace ((i <=? k / 8) && (k / 8 <=? j)
                 && negb (2 * (k / 8) =? i + j))
          with true by (symmetry; bool_cases).
        f_equal. lia.
      * replace ((i <=? k / 8) && (k / 8 <=? j)
                 && negb (2 * (k / 8) =? i + j))
          with false; [reflexivity|].
        symmetry. revert Hin. bool_cases; try discriminate; reflexivity.
  - exists b. split; [reflexivity|]. split; [exact Hwf|].
    split; [reflexivity|]. intros k Hk. bool_cases; reflexivity.
Qed.

(** X22: what [reverse_byte] computes.  When all bytes up to
    [byteright] lie inside the array the call returns.  The bytes of
    [byteleft .. byteright] change places pairwise from the outside in
    (an odd middle byte stays), and each byte that moved is mirrored,
    not bit-reversed: its bit positions 0 to 3 keep the bits of the
    byte it came from, and its positions 7, 6, 5, 4 repeat the bits of
    positions 0, 1, 2, 3.  All other bits are unchanged. *)
Theorem reverse_byte_swaps_and_mirrors (b : bitarray)
    (byteleft byteright : Z) :
  wf b -> bit_sz b <= SIZE_MAX ->
  0 <= byteleft -> 8 * byteright + 7 < bit_sz b ->
  exists b', reverse_byte b byteleft byteright = Returns b' /\
    wf b' /\ bitarray_get_bit_sz b' = bitarray_get_bit_sz b /\
    forall k, 0 <= k < bit_sz b ->
      bitarray_get b' k =
      bitarray_get b
        (if (byteleft <=? k / 8) && (k / 8 <=? byteright)
            && negb (2 * (k / 8) =? byteleft + byteright)
         then 8 * (byteleft + byteright - k / 8)
              + Z.min (k mod 8) (7 - k mod 8)
         else k).
Proof.
  intros Hwf Hmax Hl Hr. unfold reverse_byte.
  destruct (reverse_byte_loop_spec (Z.to_nat (byteright - byteleft))
              byteleft byteright b Hwf Hmax Hl Hr ltac:(lia))
    as (b' & Hloop & Hwf' & Hsz' & Hbits).
  exists b'. split; [exact Hloop|]. split; [exact Hwf'|].
  unfold bitarray_get_bit_sz. split; [exact Hsz'|].
  intros k Hk. rewrite (get_bit_at b') by (auto; lia).
  rewrite Hbits by lia.
  pose proof (Z.mod_pos_bound k 8 ltac:(lia)) as Hkm.
  pose proof (Z.div_mod k 8 ltac:(lia)) as Hkd.
  destruct ((byteleft <=? k / 8) && (k / 8 <=? byteright)
            && negb (2 * (k / 8) =? byteleft + byteright)) eqn:Hin;
    rewrite get_bit_at; auto; lia.
Qed.

Lemma reverse_byte_swaps_and_mirrors_witness :
  exists b', reverse_byte only_bit_9 1 2 = Returns b' /\
    wf b' /\ bitarray_get_bit_sz b' = bitarray_get_bit_sz only_bit_9 /\
    forall k, 0 <= k < bit_sz only_bit_9 ->
      bitarray_get b' k =
      bitarray_get only_bit_9
        (if (1 <=? k / 8) && (k / 8 <=? 2) && negb (2 * (k / 8) =? 1 + 2)
         then 8 * (1 + 2 - k / 8) + Z.min (k mod 8) (7 - k mod 8)
         else k).
Proof.
  apply (reverse_byte_swaps_and_mirrors only_bit_9 1 2);
    try lia; try (vm_compute; congruence).
  split; vm_compute; congruence.
Defined.

(** The bytes 1 and 2 of the 32-bit array with only bit 9 set: bit 1 of
    byte 1 moves to byte 2 and is repeated at position 6. *)
Example reverse_byte_on_only_bit_9 :
  reverse_byte only_bit_9 1 2 = Returns (mk_bitarray 32 [0; 0; 66; 0]).
Proof. reflexivity. Qed.
